(** * httpexpect: the Object and Match assertion wrappers

    A shallow embedding of [object.go] and [match.go]: the canonical
    value tree the wrappers hold, Go's [reflect.DeepEqual] on such trees,
    the partial-map containment check, and the assertion methods as
    computations over a store of shared failure chains. *)

From Stdlib Require Import ZArith Floats.SpecFloat.
From stdpp Require Import gmap strings list fin_maps.

#[local] Open Scope Z_scope.
#[local] Open Scope string_scope.
#[local] Open Scope list_scope.
#[local] Set Warnings "-register-all".

(** ** Canonical values

    What [encoding/json] decodes into an [interface{}]: [nil], [bool],
    [float64], [string], [[]interface{}] and [map[string]interface{}].
    A [float64] is an IEEE-754 binary64 datum, kept here as the Standard
    Library's [spec_float]. *)

Inductive CanonicalValue : Type :=
| Null
| Boolean (b : bool)
| Number (f : spec_float)
| Str (s : string)
| Sequence (l : list CanonicalValue)
| Mapping (m : gmap string CanonicalValue).

(** A variable of type [map[string]interface{}]: [None] is the nil map. *)
Definition GoMap : Type := option (gmap string CanonicalValue).

(** Reading a nil map is reading an empty one. *)
Definition entries (m : GoMap) : gmap string CanonicalValue := default ∅ m.

(** [m[key]] in its one-result form: the zero value [nil] when absent. *)
Definition mapIndex (m : GoMap) (key : string) : CanonicalValue :=
  default Null (entries m !! key).

(** [reflect.DeepEqual] on two canonical interface values. Values of
    different dynamic type differ; floats are compared with [==] (so NaN
    differs from itself and the two zeros are equal); slices are compared
    by length and position; maps by length and then key by key, every key
    of the first being looked up in the second. Go answers [true] at
    once for two slices or two maps that are one and the same object;
    that changes the answer only for a tree that holds a NaN. *)
Fixpoint DeepEqual (x y : CanonicalValue) {struct x} : bool :=
  match x, y with
  | Null, Null => true
  | Boolean a, Boolean b => bool_decide (a = b)
  | Number a, Number b => SFeqb a b
  | Str a, Str b => bool_decide (a = b)
  | Sequence xs, Sequence ys =>
      (fix go (xs ys : list CanonicalValue) {struct xs} : bool :=
         match xs, ys with
         | [], [] => true
         | x :: xs, y :: ys => DeepEqual x y && go xs ys
         | _, _ => false
         end) xs ys
  | Mapping m1, Mapping m2 =>
      bool_decide (size m1 = size m2) &&
      map_fold (λ k v1 acc,
        acc && match m2 !! k with
               | Some v2 => DeepEqual v1 v2
               | None => false
               end) true m1
  | _, _ => false
  end.

(** [reflect.DeepEqual] on two variables of map type: a nil map equals
    only a nil map. *)
Definition DeepEqualMap (x y : GoMap) : bool :=
  match x, y with
  | None, None => true
  | Some m1, Some m2 => DeepEqual (Mapping m1) (Mapping m2)
  | _, _ => false
  end.

(** [reflect.DeepEqual] on two non-nil [[]string]. *)
Definition DeepEqualStrings (x y : list string) : bool :=
  bool_decide (x = y).

(** The body of the loop of [checkContainsMap] at one key, once the
    outer value [ov] has been found: both maps, descend into them with
    the same loop; otherwise compare. The recursion is written on the
    inner value, a tree, the map it may hold being folded over;
    [containsValue_unfold] below gives the body in the shape of the
    source. *)
Fixpoint containsValue (ov iv : CanonicalValue) {struct iv} : bool :=
  match ov, iv with
  | Mapping ovm, Mapping ivm =>
      map_fold (λ k iv' acc,
        acc && match ovm !! k with
               | None => false
               | Some ov' => containsValue ov' iv'
               end) true ivm
  | _, _ => DeepEqual ov iv
  end.

(** The loop returns [false] at the first key that fails and [true]
    when none does; the fold gives the same answer, in whatever order
    the keys come. *)
Definition checkContainsMap (outer inner : gmap string CanonicalValue) : bool :=
  map_fold (λ k iv acc,
    acc && match outer !! k with
           | None => false
           | Some ov => containsValue ov iv
           end) true inner.

(** The numbers a document can carry: no NaN, no infinity. *)
Definition finite (f : spec_float) : bool :=
  match f with
  | S754_nan | S754_infinity _ => false
  | _ => true
  end.

Fixpoint canonical (v : CanonicalValue) : Prop :=
  match v with
  | Number f => finite f = true
  | Sequence l => foldr (λ x acc, canonical x ∧ acc) True l
  | Mapping m => map_fold (λ _ x acc, canonical x ∧ acc) True m
  | _ => True
  end.

(** A measure for induction on trees. *)
Fixpoint weight (v : CanonicalValue) : nat :=
  match v with
  | Sequence l => S (foldr (λ x acc, weight x + acc)%nat O l)
  | Mapping m => S (map_fold (λ _ x acc, weight x + acc)%nat O m)
  | _ => 1%nat
  end.

(** ** Raw Go values and the canonicalizer

    [canonValue] and [canonMap] are declared in another file of the
    package; the specification (section 4.1) says what they do. *)

(** Modelled from the spec: the [interface{}] inputs of [canonValue]
    and [canonMap], which hold a scalar, a slice, a string-keyed map, a
    struct (given by its serializable field representation) or something
    that does not serialize (a channel, a function). A nil map or slice
    serializes as [null], and is [RNil] here. *)
Inductive GoValue : Type :=
| RNil
| RBool (b : bool)
| RInt (n : Z)
| RFloat (f : spec_float)
| RString (s : string)
| RSlice (l : list GoValue)
| RMap (m : gmap string GoValue)
| RStruct (fields : gmap string GoValue)
| RUnsupported.

(** [float64(n)]: round to nearest, ties to even, at 53 bits. *)
Definition float64_of_Z (n : Z) : spec_float :=
  binary_normalize 53 1024 n 0 false.

Definition canonNumber (f : spec_float) : option CanonicalValue :=
  if finite f then Some (Number f) else None.

(** Modelled from the spec: the pure part of [canonValue], the
    canonical tree of an input, [None] when the input is not of an
    accepted shape. Every number becomes a [float64]; a struct becomes
    the mapping of its fields; a float no document can carry does not
    serialize. *)
Fixpoint canon (v : GoValue) : option CanonicalValue :=
  match v with
  | RNil => Some Null
  | RBool b => Some (Boolean b)
  | RInt n => canonNumber (float64_of_Z n)
  | RFloat f => canonNumber f
  | RString s => Some (Str s)
  | RSlice l => Sequence <$> mapM canon l
  | RMap m | RStruct m =>
      let m' := canon <$> m in
      if bool_decide (map_Forall (λ _, is_Some) m')
      then Some (Mapping (omap id m'))
      else None
  | RUnsupported => None
  end.

(** ** Failures *)

(** Modelled from the spec: the type [failureAssertType] of the field
    [assertType], declared in another file of the package. Its values
    are the constants the two files use, one for each kind of section 6
    of the specification, and the zero value. *)
Inductive failureAssertType : Type :=
| failureUnset
| failureInvalidInput
| failureAssertKey
| failureAssertEqual
| failureAssertNotEqual
| failureAssertContains
| failureAssertNotContains
| failureAssertEmpty
| failureAssertNotEmpty
| failureAssertOutOfBounds
| failureAssertMatchRe.

(** What the [interface{}] fields [expected] and [actual] of a [Failure]
    are given in the two files. *)
Inductive Payload : Type :=
| PNone
| PInt (n : Z)
| PString (s : string)
| PStrings (l : list string)
| PNames (names : gmap string Z)
| PMap (m : GoMap)
| PValue (v : CanonicalValue)
| PRaw (v : GoValue).

(** Modelled from the spec: the struct [Failure], declared in another
    file of the package, with the fields the composite literals of the
    two files set. *)
Record Failure : Type := {
  err : option string;
  assertionName : string;
  assertType : failureAssertType;
  expected : Payload;
  actual : Payload;
}.

(** The zero value of the struct; a composite literal sets some fields
    of it. *)
Definition Failure0 : Failure :=
  {| err := None; assertionName := ""; assertType := failureUnset;
     expected := PNone; actual := PNone |}.

(** ** The chain

    The type [chain] and its methods are declared in another file of the
    package; the specification (sections 3 and 4.3) has a chain be a
    handle on a state block shared by every wrapper derived from one
    root, holding the reporter and the failed flag. *)

(** Modelled from the spec: the interface [Reporter], here the name of
    a reporter. *)
Definition Reporter : Type := nat.

(** Modelled from the spec: the state block of a [chain]. *)
Record chainState : Type := {
  reporter : Reporter;
  failbit : bool;
}.

(** Modelled from the spec: the type [chain], a handle into the store.
    Copying a chain into a new wrapper copies the handle. *)
Definition chain : Type := nat.

(** The store: the state block of every chain made so far, and what the
    reporters have been sent, oldest first. A handle that no chain has
    reads as a chain in state ok. *)
Record Heap : Type := {
  chains : gmap nat chainState;
  reports : list (Reporter * Failure);
}.

Definition chain_at (σ : Heap) (c : chain) : chainState :=
  default {| reporter := O; failbit := false |} (chains σ !! c).

(** Computations over the store. *)
Definition M (A : Type) : Type := Heap → A * Heap.

Definition ret {A} (a : A) : M A := λ σ, (a, σ).

Definition bind {A B} (c : M A) (k : A → M B) : M B :=
  λ σ, k (c σ).1 (c σ).2.

Declare Scope M_scope.
Delimit Scope M_scope with M.
Bind Scope M_scope with M.
Notation "x <- c ;; k" := (bind c (λ x, k))
  (at level 100, c at next level, k at level 200, right associativity)
  : M_scope.
Notation "c ;; k" := (bind c (λ _, k))
  (at level 100, k at level 200, right associativity) : M_scope.
#[local] Open Scope M_scope.

(** Modelled from the spec: [makeChain], a new chain in state ok, on a
    handle no chain has yet. *)
Definition makeChain (r : Reporter) : M chain := λ σ,
  let c := fresh (dom (chains σ)) in
  (c, {| chains := <[c := {| reporter := r; failbit := false |}]> (chains σ);
         reports := reports σ |}).

(** Modelled from the spec: [chain.fail], which marks the chain failed
    and forwards the failure to the reporter, whether or not the chain
    had failed already. *)
Definition fail (c : chain) (f : Failure) : M () := λ σ,
  let st := chain_at σ c in
  ((), {| chains := <[c := {| reporter := reporter st; failbit := true |}]>
                      (chains σ);
          reports := reports σ ++ [(reporter st, f)] |}).

(** Modelled from the spec: [chain.failed], a pure query. *)
Definition failed (c : chain) : M bool := λ σ,
  (failbit (chain_at σ c), σ).

(** Modelled from the spec: the failure the canonicalizer records; only
    its kind is specified. *)
Definition invalidInput : Failure :=
  {| err := None; assertionName := ""; assertType := failureInvalidInput;
     expected := PNone; actual := PNone |}.

(** Modelled from the spec: [canonValue(chain, input)], with [ok = false]
    and one invalid-input failure when the input is not accepted. *)
Definition canonValue (c : chain) (v : GoValue) : M (CanonicalValue * bool) :=
  match canon v with
  | Some cv => ret (cv, true)
  | None => fail c invalidInput ;; ret (Null, false)
  end.

(** Modelled from the spec: [canonMap(chain, input)], which requires in
    addition that the canonical value be a mapping. The map returned
    with [ok = false] is the nil map. *)
Definition canonMap (c : chain) (v : GoValue) : M (GoMap * bool) :=
  r <- canonValue c v ;;
  if r.2 then
    match r.1 with
    | Mapping m => ret (Some m, true)
    | _ => fail c invalidInput ;; ret (None, false)
    end
  else ret (None, false).

(** ** Wrappers *)

Record Object : Type := {
  o_chain : chain;
  o_value : GoMap;
}.

Record Match : Type := {
  m_chain : chain;
  submatches : list string;
  names : gmap string Z;
}.

(** The wrappers declared in other files of the package, as the
    composite literals of the two files build them: a chain and a
    payload. [String_] and [Number_] are Go's [String] and [Number]. *)
Record Value : Type := { v_chain : chain; v_value : CanonicalValue }.
Record Array : Type := { a_chain : chain; a_value : list CanonicalValue }.
Record String_ : Type := { s_chain : chain; s_value : string }.
Record Number_ : Type := { n_chain : chain; n_value : spec_float }.

(** ** Object *)

Definition NewObject (reporter : Reporter)
    (value : option (gmap string GoValue)) : M Object :=
  chain <- makeChain reporter ;;
  match value with
  | None =>
      fail chain {| err := Some "expected non-nil map value";
                    assertionName := "";
                    assertType := failureInvalidInput;
                    expected := PNone; actual := PNone |} ;;
      ret {| o_chain := chain; o_value := None |}
  | Some m =>
      r <- canonMap chain (RMap m) ;;
      ret {| o_chain := chain; o_value := r.1 |}
  end.

Module Object.

Definition Raw (o : Object) : GoMap := o_value o.

Section external.
(** [getPath] and [checkSchema] belong to the JSON-path and
    JSON-schema integration, declared in other files of the package;
    they are parameters here. *)
Variable getPath : chain → GoMap → string → M Value.
Variable checkSchema : chain → GoMap → GoValue → M ().

Definition Path (o : Object) (path : string) : M Value :=
  getPath (o_chain o) (o_value o) path.

Definition Schema (o : Object) (schema : GoValue) : M Object :=
  checkSchema (o_chain o) (o_value o) schema ;;
  ret o.
End external.

(** The keys and values are appended in the order of the [range] loop,
    which Go leaves unspecified; here it is the order of
    [map_to_list]. *)
Definition Keys (o : Object) : Array :=
  let keys := foldl (λ keys kv, keys ++ [Str kv.1]) []
                    (map_to_list (entries (o_value o))) in
  {| a_chain := o_chain o; a_value := keys |}.

Definition Values (o : Object) : Array :=
  let values := foldl (λ values kv, values ++ [kv.2]) []
                      (map_to_list (entries (o_value o))) in
  {| a_chain := o_chain o; a_value := values |}.

Definition Value (o : Object) (key : string) : M Value :=
  match entries (o_value o) !! key with
  | None =>
      let failure := {| err := None;
                        assertionName := "Object.Value";
                        assertType := failureAssertKey;
                        expected := PString key;
                        actual := PMap (o_value o) |} in
      fail (o_chain o) failure ;;
      ret {| v_chain := o_chain o; v_value := Null |}
  | Some value => ret {| v_chain := o_chain o; v_value := value |}
  end.

Definition Equal (o : Object) (value : GoValue) : M Object :=
  r <- canonMap (o_chain o) value ;;
  let expected := r.1 in
  if negb r.2 then ret o
  else if negb (DeepEqualMap expected (o_value o)) then
    let failure := {| err := None;
                      assertionName := "Object.Equal";
                      assertType := failureAssertEqual;
                      expected := PMap expected;
                      actual := PMap (o_value o) |} in
    fail (o_chain o) failure ;;
    ret o
  else ret o.

Definition NotEqual (o : Object) (v : GoValue) : M Object :=
  r <- canonMap (o_chain o) v ;;
  let expected := r.1 in
  if negb r.2 then ret o
  else if DeepEqualMap expected (o_value o) then
    let failure := {| err := None;
                      assertionName := "Object.NotEqual";
                      assertType := failureAssertNotEqual;
                      expected := PRaw v;
                      actual := PNone |} in
    fail (o_chain o) failure ;;
    ret o
  else ret o.

Definition Empty (o : Object) : M Object := Equal o (RMap ∅).

Definition NotEmpty (o : Object) : M Object := NotEqual o (RMap ∅).

Definition containsKey (o : Object) (key : string) : bool :=
  existsb (λ kv, bool_decide (kv.1 = key))
          (map_to_list (entries (o_value o))).

Definition ContainsKey (o : Object) (key : string) : M Object :=
  if negb (containsKey o key) then
    let failure := {| err := None;
                      assertionName := "Object.ContainsKey";
                      assertType := failureAssertKey;
                      expected := PString key;
                      actual := PMap (o_value o) |} in
    fail (o_chain o) failure ;;
    ret o
  else ret o.

Definition NotContainsKey (o : Object) (key : string) : M Object :=
  if containsKey o key then
    let failure := {| err := None;
                      assertionName := "Object.NotContainsKey";
                      assertType := failureAssertKey;
                      expected := PString key;
                      actual := PMap (o_value o) |} in
    fail (o_chain o) failure ;;
    ret o
  else ret o.

Definition containsMap (o : Object) (sm : GoValue) : M bool :=
  r <- canonMap (o_chain o) sm ;;
  let submap := r.1 in
  if negb r.2 then ret false
  else ret (checkContainsMap (entries (o_value o)) (entries submap)).

Definition ContainsMap (o : Object) (value : GoValue) : M Object :=
  b <- containsMap o value ;;
  if negb b then
    let failure := {| err := None;
                      assertionName := "Object.ContainsMap";
                      assertType := failureAssertContains;
                      expected := PRaw value;
                      actual := PMap (o_value o) |} in
    fail (o_chain o) failure ;;
    ret o
  else ret o.

Definition NotContainsMap (o : Object) (value : GoValue) : M Object :=
  b <- containsMap o value ;;
  if b then
    let failure := {| err := None;
                      assertionName := "Object.NotContainsMap";
                      assertType := failureAssertNotContains;
                      expected := PRaw value;
                      actual := PMap (o_value o) |} in
    fail (o_chain o) failure ;;
    ret o
  else ret o.

Definition ValueEqual (o : Object) (key : string) (value : GoValue)
    : M Object :=
  ContainsKey o key ;;
  f <- failed (o_chain o) ;;
  if f then ret o
  else
    r <- canonValue (o_chain o) value ;;
    let expected := r.1 in
    if negb r.2 then ret o
    else if negb (DeepEqual expected (mapIndex (o_value o) key)) then
      let failure := {| err := None;
                        assertionName := "Object.ValueEqual";
                        assertType := failureAssertEqual;
                        expected := PValue expected;
                        actual := PValue (mapIndex (o_value o) key) |} in
      fail (o_chain o) failure ;;
      ret o
    else ret o.

Definition ValueNotEqual (o : Object) (key : string) (value : GoValue)
    : M Object :=
  ContainsKey o key ;;
  f <- failed (o_chain o) ;;
  if f then ret o
  else
    r <- canonValue (o_chain o) value ;;
    let expected := r.1 in
    if negb r.2 then ret o
    else if DeepEqual expected (mapIndex (o_value o) key) then
      let failure := {| err := None;
                        assertionName := "Object.ValueNotEqual";
                        assertType := failureAssertNotEqual;
                        expected := PValue expected;
                        actual := PNone |} in
      fail (o_chain o) failure ;;
      ret o
    else ret o.

End Object.

(** ** Match *)

(** A [[]string] argument: [None] is the nil slice. *)
Definition GoStrings : Type := option (list string).

(** One turn of the loop of [makeMatch], at place [n] of [names]. *)
Definition bindName (namemap : gmap string Z) (entry : Z * string)
    : gmap string Z :=
  let '(n, name) := entry in
  if negb (bool_decide (name = "")) then <[name := n]> namemap
  else namemap.

Definition makeMatch (chain : chain) (submatches names : GoStrings)
    : Match :=
  let submatches := match submatches with
                    | None => []
                    | Some l => l
                    end in
  let namemap :=
    foldl bindName ∅
          (imap (λ n name, (Z.of_nat n, name)) (default [] names)) in
  {| m_chain := chain; submatches := submatches; names := namemap |}.

Definition NewMatch (reporter : Reporter) (submatches names : GoStrings)
    : M Match :=
  chain <- makeChain reporter ;;
  ret (makeMatch chain submatches names).

Module Match.

Definition Raw (m : Match) : list string := submatches m.

(** [len(m.submatches)], an [int]; indices are compared, never
    computed with, so that an integer stands for an [int]. *)
Definition len (m : Match) : Z := Z.of_nat (length (submatches m)).

Definition Length (m : Match) : Number_ :=
  {| n_chain := m_chain m; n_value := float64_of_Z (len m) |}.

Definition Index (m : Match) (index : Z) : M String_ :=
  if bool_decide (index < 0) || bool_decide (index >= len m) then
    let failure := {| err := None;
                      assertionName := "Match.Index";
                      assertType := failureAssertOutOfBounds;
                      expected := PInt index;
                      actual := PInt (len m) |} in
    fail (m_chain m) failure ;;
    ret {| s_chain := m_chain m; s_value := "" |}
  else
    ret {| s_chain := m_chain m;
           s_value := nth (Z.to_nat index) (submatches m) "" |}.

Definition Name (m : Match) (name : string) : M String_ :=
  match names m !! name with
  | None =>
      let failure := {| err := None;
                        assertionName := "Match.Name";
                        assertType := failureAssertMatchRe;
                        expected := PNames (names m);
                        actual := PString name |} in
      fail (m_chain m) failure ;;
      ret {| s_chain := m_chain m; s_value := "" |}
  | Some index => Index m index
  end.

Definition Empty (m : Match) : M Match :=
  if negb (bool_decide (len m = 0)) then
    let failure := {| err := None;
                      assertionName := "Match.Empty";
                      assertType := failureAssertEmpty;
                      expected := PNone;
                      actual := PStrings (submatches m) |} in
    fail (m_chain m) failure ;;
    ret m
  else ret m.

Definition NotEmpty (m : Match) : M Match :=
  if bool_decide (len m = 0) then
    let failure := {| err := None;
                      assertionName := "Match.NotEmpty";
                      assertType := failureAssertNotEmpty;
                      expected := PNone;
                      actual := PNone |} in
    fail (m_chain m) failure ;;
    ret m
  else ret m.

Definition getValues (m : Match) : list string :=
  if bool_decide (len m > 1) then drop 1 (submatches m) else [].

Definition Values (m : Match) (values : GoStrings) : M Match :=
  let values := match values with
                | None => []
                | Some l => l
                end in
  if negb (DeepEqualStrings values (getValues m)) then
    let failure := {| err := None;
                      assertionName := "Match.Values";
                      assertType := failureAssertEqual;
                      expected := PStrings values;
                      actual := PStrings (getValues m) |} in
    fail (m_chain m) failure ;;
    ret m
  else ret m.

Definition NotValues (m : Match) (values : GoStrings) : M Match :=
  let values := match values with
                | None => []
                | Some l => l
                end in
  if DeepEqualStrings values (getValues m) then
    let failure := {| err := None;
                      assertionName := "Match.NotValues";
                      assertType := failureAssertNotEqual;
                      expected := PStrings values;
                      actual := PNone |} in
    fail (m_chain m) failure ;;
    ret m
  else ret m.

End Match.

(** ** Named failures and sample data *)

(** The failure [Object.ContainsKey] builds. *)
Definition keyFailure (o : Object) (key : string) : Failure :=
  {| err := None;
     assertionName := "Object.ContainsKey";
     assertType := failureAssertKey;
     expected := PString key;
     actual := PMap (o_value o) |}.

(** The failure [Object.Equal] builds when compared with the empty map. *)
Definition emptyFailure (o : Object) : Failure :=
  {| err := None;
     assertionName := "Object.Equal";
     assertType := failureAssertEqual;
     expected := PMap (Some ∅);
     actual := PMap (o_value o) |}.

(** The failure [Object.NotEqual] builds when compared with the empty map. *)
Definition notEmptyFailure : Failure :=
  {| err := None;
     assertionName := "Object.NotEqual";
     assertType := failureAssertNotEqual;
     expected := PRaw (RMap ∅);
     actual := PNone |}.

(** The failure [Match.Index] builds. *)
Definition indexFailure (m : Match) (i : Z) : Failure :=
  {| err := None;
     assertionName := "Match.Index";
     assertType := failureAssertOutOfBounds;
     expected := PInt i;
     actual := PInt (Match.len m) |}.

(** The failure [Match.Name] builds. *)
Definition nameFailure (m : Match) (name : string) : Failure :=
  {| err := None;
     assertionName := "Match.Name";
     assertType := failureAssertMatchRe;
     expected := PNames (names m);
     actual := PString name |}.

(** An empty store. *)
Definition empty_heap : Heap := {| chains := ∅; reports := [] |}.

(** The object of the package documentation, on the first chain of
    [empty_heap]. *)
Definition sample_object : Object :=
  (NewObject 7%nat
     (Some {[ "foo" := RInt 123;
              "bar" := RMap {[ "a" := RBool true; "b" := RBool false ]} ]})
     empty_heap).1.

Definition sample_heap : Heap :=
  (NewObject 7%nat
     (Some {[ "foo" := RInt 123;
              "bar" := RMap {[ "a" := RBool true; "b" := RBool false ]} ]})
     empty_heap).2.

(** ** Calls

    Every method of the two wrappers, as one computation returning what
    the method returns. *)

Inductive ObjectCall : Type :=
| ORaw
| OPath (path : string)
| OSchema (schema : GoValue)
| OKeys
| OValues
| OValue (key : string)
| OEmpty
| ONotEmpty
| OEqual (value : GoValue)
| ONotEqual (v : GoValue)
| OContainsKey (key : string)
| ONotContainsKey (key : string)
| OContainsMap (value : GoValue)
| ONotContainsMap (value : GoValue)
| OValueEqual (key : string) (value : GoValue)
| OValueNotEqual (key : string) (value : GoValue).

Inductive MatchCall : Type :=
| MRaw
| MLength
| MIndex (index : Z)
| MName (name : string)
| MEmpty
| MNotEmpty
| MValues (values : GoStrings)
| MNotValues (values : GoStrings).

Inductive Returned : Type :=
| RetObject (o : Object)
| RetMatch (m : Match)
| RetValue (v : Value)
| RetArray (a : Array)
| RetString (s : String_)
| RetNumber (n : Number_)
| RetMap (m : GoMap)
| RetStrings (l : list string).

Definition callObject
    (getPath : chain → GoMap → string → M Value)
    (checkSchema : chain → GoMap → GoValue → M ())
    (o : Object) (call : ObjectCall) : M Returned :=
  match call with
  | ORaw => ret (RetMap (Object.Raw o))
  | OPath path => v <- Object.Path getPath o path ;; ret (RetValue v)
  | OSchema schema =>
      o' <- Object.Schema checkSchema o schema ;; ret (RetObject o')
  | OKeys => ret (RetArray (Object.Keys o))
  | OValues => ret (RetArray (Object.Values o))
  | OValue key => v <- Object.Value o key ;; ret (RetValue v)
  | OEmpty => o' <- Object.Empty o ;; ret (RetObject o')
  | ONotEmpty => o' <- Object.NotEmpty o ;; ret (RetObject o')
  | OEqual value => o' <- Object.Equal o value ;; ret (RetObject o')
  | ONotEqual v => o' <- Object.NotEqual o v ;; ret (RetObject o')
  | OContainsKey key => o' <- Object.ContainsKey o key ;; ret (RetObject o')
  | ONotContainsKey key =>
      o' <- Object.NotContainsKey o key ;; ret (RetObject o')
  | OContainsMap value =>
      o' <- Object.ContainsMap o value ;; ret (RetObject o')
  | ONotContainsMap value =>
      o' <- Object.NotContainsMap o value ;; ret (RetObject o')
  | OValueEqual key value =>
      o' <- Object.ValueEqual o key value ;; ret (RetObject o')
  | OValueNotEqual key value =>
      o' <- Object.ValueNotEqual o key value ;; ret (RetObject o')
  end.

Definition callMatch (m : Match) (call : MatchCall) : M Returned :=
  match call with
  | MRaw => ret (RetStrings (Match.Raw m))
  | MLength => ret (RetNumber (Match.Length m))
  | MIndex index => s <- Match.Index m index ;; ret (RetString s)
  | MName name => s <- Match.Name m name ;; ret (RetString s)
  | MEmpty => m' <- Match.Empty m ;; ret (RetMatch m')
  | MNotEmpty => m' <- Match.NotEmpty m ;; ret (RetMatch m')
  | MValues values => m' <- Match.Values m values ;; ret (RetMatch m')
  | MNotValues values => m' <- Match.NotValues m values ;; ret (RetMatch m')
  end.

(** What a method of an object hands back: the object itself, its
    payload, or a wrapper on its chain. *)
Definition keeps_object (o : Object) (r : Returned) : Prop :=
  match r with
  | RetObject o' => o' = o
  | RetMap v => v = o_value o
  | RetValue v => v_chain v = o_chain o
  | RetArray a => a_chain a = o_chain o
  | _ => False
  end.

Definition keeps_match (m : Match) (r : Returned) : Prop :=
  match r with
  | RetMatch m' => m' = m
  | RetStrings l => l = submatches m
  | RetString s => s_chain s = m_chain m
  | RetNumber n => n_chain n = m_chain m
  | _ => False
  end.

(** The store [σ'] differs from [σ] by failures recorded through the
    chain [c] only: the other chains are as they were, [c] keeps its
    reporter and stays failed if it was, and the reports are those of
    [σ] followed by failures sent to the reporter of [c]. *)
Definition writes_through (c : chain) (σ σ' : Heap) : Prop :=
  (∀ c', c' ≠ c → chains σ' !! c' = chains σ !! c') ∧
  reporter (chain_at σ' c) = reporter (chain_at σ c) ∧
  (failbit (chain_at σ c) = true → failbit (chain_at σ' c) = true) ∧
  ∃ fs : list Failure,
    reports σ' = reports σ ++ map (pair (reporter (chain_at σ c))) fs.

(** A computation that writes through [c] only, from any store. *)
Definition frame {A} (c : chain) (comp : M A) : Prop :=
  ∀ σ, writes_through c σ (comp σ).2.

(** A path helper that finds nothing and a schema check that accepts
    everything, to run [Path] and [Schema] with. *)
Definition getPath_null (c : chain) (_ : GoMap) (_ : string) : M Value :=
  ret {| v_chain := c; v_value := Null |}.

Definition checkSchema_any (_ : chain) (_ : GoMap) (_ : GoValue) : M () :=
  ret ().

(** A measure for induction on raw values. *)
Fixpoint rawWeight (v : GoValue) : nat :=
  match v with
  | RSlice l => S (foldr (λ x acc, rawWeight x + acc)%nat O l)
  | RMap m | RStruct m =>
      S (map_fold (λ _ x acc, rawWeight x + acc)%nat O m)
  | _ => 1%nat
  end.

(** ** More named failures *)

(** The failure [Object.Value] builds. *)
Definition valueFailure (o : Object) (key : string) : Failure :=
  {| err := None;
     assertionName := "Object.Value";
     assertType := failureAssertKey;
     expected := PString key;
     actual := PMap (o_value o) |}.

(** The failure [Object.NotContainsKey] builds. *)
Definition notKeyFailure (o : Object) (key : string) : Failure :=
  {| err := None;
     assertionName := "Object.NotContainsKey";
     assertType := failureAssertKey;
     expected := PString key;
     actual := PMap (o_value o) |}.

(** The failure [Object.Equal] builds, [expected] being the canonical
    form of its argument. *)
Definition equalFailure (o : Object) (expected : GoMap) : Failure :=
  {| err := None;
     assertionName := "Object.Equal";
     assertType := failureAssertEqual;
     expected := PMap expected;
     actual := PMap (o_value o) |}.

(** The failure [Object.NotEqual] builds, [v] being its argument as
    given. *)
Definition notEqualFailure (v : GoValue) : Failure :=
  {| err := None;
     assertionName := "Object.NotEqual";
     assertType := failureAssertNotEqual;
     expected := PRaw v;
     actual := PNone |}.

(** The failures [Object.ContainsMap] and [Object.NotContainsMap]
    build. *)
Definition containsFailure (o : Object) (value : GoValue) : Failure :=
  {| err := None;
     assertionName := "Object.ContainsMap";
     assertType := failureAssertContains;
     expected := PRaw value;
     actual := PMap (o_value o) |}.

Definition notContainsFailure (o : Object) (value : GoValue) : Failure :=
  {| err := None;
     assertionName := "Object.NotContainsMap";
     assertType := failureAssertNotContains;
     expected := PRaw value;
     actual := PMap (o_value o) |}.

(** The failures [Object.ValueEqual] and [Object.ValueNotEqual] build,
    [expected] being the canonical form of the value given. *)
Definition valueEqualFailure (o : Object) (key : string)
    (expected : CanonicalValue) : Failure :=
  {| err := None;
     assertionName := "Object.ValueEqual";
     assertType := failureAssertEqual;
     expected := PValue expected;
     actual := PValue (mapIndex (o_value o) key) |}.

Definition valueNotEqualFailure (expected : CanonicalValue) : Failure :=
  {| err := None;
     assertionName := "Object.ValueNotEqual";
     assertType := failureAssertNotEqual;
     expected := PValue expected;
     actual := PNone |}.

(** The failures [Match.Empty] and [Match.NotEmpty] build. *)
Definition matchEmptyFailure (m : Match) : Failure :=
  {| err := None;
     assertionName := "Match.Empty";
     assertType := failureAssertEmpty;
     expected := PNone;
     actual := PStrings (submatches m) |}.

Definition matchNotEmptyFailure : Failure :=
  {| err := None;
     assertionName := "Match.NotEmpty";
     assertType := failureAssertNotEmpty;
     expected := PNone;
     actual := PNone |}.

(** The store after the failures [fs] have been recorded through [c],
    first to last. *)
Definition record (c : chain) (fs : list Failure) (σ : Heap) : Heap :=
  foldl (λ σ f, (fail c f σ).2) σ fs.

(** The most failures one call of a method of [Object] records: two for
    [ContainsMap], one for the others. [Path] and [Schema] record
    through helpers declared elsewhere. *)
Definition most_failures (call : ObjectCall) : option nat :=
  match call with
  | OPath _ | OSchema _ => None
  | OContainsMap _ => Some 2%nat
  | _ => Some 1%nat
  end.

(** The store [σ'] is [σ] after at most [n] failures recorded through
    [c], and if any was recorded [c] is failed in [σ']. *)
Definition records_at_most (n : nat) (c : chain) (σ σ' : Heap) : Prop :=
  ∃ fs : list Failure,
    σ' = record c fs σ ∧ (length fs ≤ n)%nat ∧
    (fs = [] ∨ failbit (chain_at σ' c) = true).

(** * Properties *)

(** ** Folds over a map *)

Section folds.
Context {A : Type}.

Lemma fold_andb_true (P : string → A → bool) (m : gmap string A) :
  map_fold (λ k v acc, acc && P k v) true m = true ↔
  ∀ k v, m !! k = Some v → P k v = true.
Proof.
  apply (map_fold_weak_ind
           (λ r m, r = true ↔ ∀ k v, m !! k = Some v → P k v = true)).
  - split; [intros _ k v Hk | done]. by rewrite lookup_empty in Hk.
  - intros i x m' r Hi IH. rewrite andb_true_iff, IH. split.
    + intros [Hm Hx] k v Hk.
      destruct (decide (i = k)) as [->|Hne].
      * rewrite lookup_insert_eq in Hk. by simplify_eq.
      * rewrite lookup_insert_ne in Hk by done. eauto.
    + intros H. split.
      * intros k v Hk. apply H. rewrite lookup_insert_ne; [done|].
        intros ->. congruence.
      * apply H. by rewrite lookup_insert_eq.
Qed.

Lemma fold_and_all (Q : A → Prop) (m : gmap string A) :
  map_fold (λ _ x acc, Q x ∧ acc) True m ↔
  ∀ k v, m !! k = Some v → Q v.
Proof.
  apply (map_fold_weak_ind
           (λ r m, r ↔ ∀ k v, m !! k = Some v → Q v)).
  - split; [intros _ k v Hk | done]. by rewrite lookup_empty in Hk.
  - intros i x m' r Hi IH. rewrite IH. split.
    + intros [Hx Hm] k v Hk.
      destruct (decide (i = k)) as [->|Hne].
      * rewrite lookup_insert_eq in Hk. by simplify_eq.
      * rewrite lookup_insert_ne in Hk by done. eauto.
    + intros H. split.
      * apply (H i). by rewrite lookup_insert_eq.
      * intros k v Hk. apply (H k). rewrite lookup_insert_ne; [done|].
        intros ->. congruence.
Qed.

Lemma fold_sum_ge (f : A → nat) (m : gmap string A) k v :
  m !! k = Some v →
  (f v ≤ map_fold (λ _ x acc, f x + acc) O m)%nat.
Proof.
  revert k v.
  apply (map_fold_weak_ind
           (λ r m, ∀ k v, m !! k = Some v → (f v ≤ r)%nat)).
  - intros k v Hk. by rewrite lookup_empty in Hk.
  - intros i x m' r Hi IH k v Hk.
    destruct (decide (i = k)) as [->|Hne].
    + rewrite lookup_insert_eq in Hk. simplify_eq. lia.
    + rewrite lookup_insert_ne in Hk by done.
      specialize (IH k v Hk). lia.
Qed.
End folds.

(** ** Induction on canonical trees *)

Lemma weight_elem (l : list CanonicalValue) x :
  x ∈ l → (weight x < weight (Sequence l))%nat.
Proof.
  simpl. induction 1 as [x l|x y l _ IH]; simpl in *; lia.
Qed.

Lemma weight_lookup (m : gmap string CanonicalValue) k v :
  m !! k = Some v → (weight v < weight (Mapping m))%nat.
Proof.
  intros Hk. simpl. apply (fold_sum_ge weight) in Hk. lia.
Qed.

Lemma CanonicalValue_tree_ind (P : CanonicalValue → Prop) :
  P Null →
  (∀ b, P (Boolean b)) →
  (∀ f, P (Number f)) →
  (∀ s, P (Str s)) →
  (∀ l, (∀ x, x ∈ l → P x) → P (Sequence l)) →
  (∀ m, (∀ k v, m !! k = Some v → P v) → P (Mapping m)) →
  ∀ v, P v.
Proof.
  intros HN HB HF HS HL HM v.
  remember (weight v) as n eqn:Hn. revert v Hn.
  induction (lt_wf n) as [n _ IH]. intros v ->.
  destruct v; auto.
  - apply HL. intros x Hx. eapply IH; [|done]. by apply weight_elem.
  - apply HM. intros k v Hk. eapply IH; [|done]. by eapply weight_lookup.
Qed.

(** ** Deep equality *)

Lemma DeepEqual_Sequence (xs ys : list CanonicalValue) :
  DeepEqual (Sequence xs) (Sequence ys) = true ↔
  Forall2 (λ x y, DeepEqual x y = true) xs ys.
Proof.
  simpl. revert ys. induction xs as [|x xs IH]; intros [|y ys]; simpl.
  - split; [constructor | done].
  - split; [done | inversion 1].
  - split; [done | inversion 1].
  - rewrite andb_true_iff, IH. split.
    + intros [??]. by constructor.
    + by inversion 1.
Qed.

Lemma DeepEqual_Mapping (m1 m2 : gmap string CanonicalValue) :
  DeepEqual (Mapping m1) (Mapping m2) = true ↔
  size m1 = size m2 ∧
  ∀ k v1, m1 !! k = Some v1 →
          ∃ v2, m2 !! k = Some v2 ∧ DeepEqual v1 v2 = true.
Proof.
  simpl. rewrite andb_true_iff, bool_decide_eq_true.
  rewrite (fold_andb_true
             (λ k v1, match m2 !! k with
                      | Some v2 => DeepEqual v1 v2
                      | None => false
                      end)).
  split; intros [Hs H]; (split; [done|]); intros k v1 Hk.
  - specialize (H k v1 Hk). destruct (m2 !! k); [eauto | done].
  - destruct (H k v1 Hk) as (v2 & -> & ?). done.
Qed.

(** Two maps of the same size, the keys of one among the keys of the
    other, have the same keys. *)
Lemma same_size_same_keys {A B} (m1 : gmap string A) (m2 : gmap string B) :
  size m1 = size m2 →
  (∀ k, is_Some (m1 !! k) → is_Some (m2 !! k)) →
  ∀ k, is_Some (m2 !! k) → is_Some (m1 !! k).
Proof.
  intros Hs Hsub k Hk.
  assert (dom m1 ⊆ dom m2) as Hdom.
  { intros i. rewrite !elem_of_dom. apply Hsub. }
  assert (dom m1 = dom m2) as Hdom'.
  { apply set_subseteq_size_eq; [done|]. rewrite !size_dom. lia. }
  apply elem_of_dom. rewrite Hdom'. by apply elem_of_dom.
Qed.

Lemma SFeqb_refl (f : spec_float) : finite f = true → SFeqb f f = true.
Proof.
  unfold SFeqb, SFcompare. destruct f as [s|s| |s m e]; try done.
  intros _. rewrite Z.compare_refl, Pos.compare_cont_refl. by destruct s.
Qed.

Lemma canonical_Sequence (l : list CanonicalValue) :
  canonical (Sequence l) ↔ ∀ x, x ∈ l → canonical x.
Proof.
  simpl. induction l as [|y l IH]; simpl.
  - split; [intros _ x Hx; inversion Hx | done].
  - rewrite IH. split.
    + intros [Hy Hl] x Hx. inversion Hx; subst; auto.
    + intros H. split; [apply H; left | intros x Hx; apply H; by right].
Qed.

Lemma canonical_Mapping (m : gmap string CanonicalValue) :
  canonical (Mapping m) ↔ ∀ k v, m !! k = Some v → canonical v.
Proof. simpl. apply (fold_and_all canonical). Qed.

Lemma DeepEqual_refl (v : CanonicalValue) :
  canonical v → DeepEqual v v = true.
Proof.
  induction v as [|b|f|s|l IH|m IH] using CanonicalValue_tree_ind;
    intros Hc.
  - done.
  - simpl. by apply bool_decide_eq_true.
  - by apply SFeqb_refl.
  - simpl. by apply bool_decide_eq_true.
  - apply DeepEqual_Sequence. rewrite canonical_Sequence in Hc.
    apply Forall2_same_length_lookup_2; [done|].
    intros i x y Hx Hy. simplify_eq.
    apply IH; [|apply Hc]; by eapply list_elem_of_lookup_2.
  - apply DeepEqual_Mapping. rewrite canonical_Mapping in Hc.
    split; [done|]. intros k v Hk. exists v. split; [done|]. eauto.
Qed.

(** ** Partial-map containment *)

Lemma containsValue_Mapping (ovm ivm : gmap string CanonicalValue) :
  containsValue (Mapping ovm) (Mapping ivm) = checkContainsMap ovm ivm.
Proof. reflexivity. Qed.

(** The loop body as the source writes it: the type assertions first,
    [reflect.DeepEqual] when either fails. *)
Lemma containsValue_unfold (ov iv : CanonicalValue) :
  containsValue ov iv =
  match ov, iv with
  | Mapping ovm, Mapping ivm => checkContainsMap ovm ivm
  | _, _ => DeepEqual ov iv
  end.
Proof. by destruct ov, iv. Qed.

Lemma checkContainsMap_true (outer inner : gmap string CanonicalValue) :
  checkContainsMap outer inner = true ↔
  ∀ k iv, inner !! k = Some iv →
          ∃ ov, outer !! k = Some ov ∧ containsValue ov iv = true.
Proof.
  unfold checkContainsMap.
  rewrite (fold_andb_true
             (λ k iv, match outer !! k with
                      | None => false
                      | Some ov => containsValue ov iv
                      end)).
  split; intros H k iv Hk.
  - specialize (H k iv Hk). destruct (outer !! k); [eauto | done].
  - destruct (H k iv Hk) as (ov & -> & ?). done.
Qed.

(** Deeply equal values contain one another. *)
Lemma DeepEqual_containsValue (iv ov : CanonicalValue) :
  DeepEqual ov iv = true → containsValue ov iv = true.
Proof.
  revert ov.
  induction iv as [|b|f|s|l IH|m IH] using CanonicalValue_tree_ind;
    intros ov Heq; rewrite containsValue_unfold; destruct ov; try done.
  apply DeepEqual_Mapping in Heq as [Hs Heq].
  apply checkContainsMap_true. intros k iv Hk.
  destruct (same_size_same_keys m0 m Hs) with (k := k) as [ov Hov].
  { intros i [v1 Hi]. destruct (Heq i v1 Hi) as (? & ? & _). eauto. }
  { eauto. }
  exists ov. split; [done|].
  destruct (Heq k ov Hov) as (v2 & Hv2 & Hd). simplify_eq.
  by eapply IH.
Qed.

(** ** The chain *)

Lemma bind_eq {A B} (c : M A) (k : A → M B) (σ : Heap) :
  (x <- c ;; k x) σ = k (c σ).1 (c σ).2.
Proof. reflexivity. Qed.

Lemma failbit_fail (c : chain) (f : Failure) (σ : Heap) :
  failbit (chain_at (fail c f σ).2 c) = true.
Proof. unfold chain_at, fail. simpl. by rewrite lookup_insert_eq. Qed.

Lemma reporter_fail (c c' : chain) (f : Failure) (σ : Heap) :
  reporter (chain_at (fail c f σ).2 c') = reporter (chain_at σ c').
Proof.
  unfold chain_at at 1, fail. simpl.
  destruct (decide (c = c')) as [->|Hne].
  - by rewrite lookup_insert_eq.
  - by rewrite lookup_insert_ne.
Qed.

Lemma chain_at_fail_ne (c c' : chain) (f : Failure) (σ : Heap) :
  c ≠ c' → chain_at (fail c f σ).2 c' = chain_at σ c'.
Proof. intros Hne. unfold chain_at, fail. simpl. by rewrite lookup_insert_ne. Qed.

Lemma reports_fail (c : chain) (f : Failure) (σ : Heap) :
  reports (fail c f σ).2 = reports σ ++ [(reporter (chain_at σ c), f)].
Proof. reflexivity. Qed.

(** Once failed, a chain stays failed. *)
Lemma failbit_fail_mono (c c' : chain) (f : Failure) (σ : Heap) :
  failbit (chain_at σ c') = true →
  failbit (chain_at (fail c f σ).2 c') = true.
Proof.
  intros H. destruct (decide (c = c')) as [->|Hne].
  - apply failbit_fail.
  - by rewrite chain_at_fail_ne.
Qed.

(** ** Containment, as the specification words it *)

(** C1. Partial-map containment holds exactly when every key of the
    inner mapping is present in the outer one and, at that key, either
    both values are mappings and containment holds between them, or the
    two values are deeply equal. A sequence under an inner key must thus
    be matched position by position by a sequence of the same length,
    and [Object.ContainsMap], once its argument is canonicalized, records
    its failure exactly when [checkContainsMap] fails on the payload. *)
Theorem checkContainsMap_spec (outer inner : gmap string CanonicalValue) :
  (checkContainsMap outer inner = true ↔
   ∀ k iv, inner !! k = Some iv →
     ∃ ov, outer !! k = Some ov ∧
       ((∃ ovm ivm, ov = Mapping ovm ∧ iv = Mapping ivm ∧
                    checkContainsMap ovm ivm = true)
        ∨ DeepEqual ov iv = true))
  ∧ (∀ k l, inner !! k = Some (Sequence l) →
       checkContainsMap outer inner = true →
       ∃ l', outer !! k = Some (Sequence l') ∧ length l' = length l ∧
             ∀ i x y, l' !! i = Some x → l !! i = Some y →
                      DeepEqual x y = true)
  ∧ (∀ (o : Object) (value : GoValue) (σ : Heap),
       o_value o = Some outer →
       canon value = Some (Mapping inner) →
       Object.ContainsMap o value σ =
       if checkContainsMap outer inner then (o, σ)
       else (o, (fail (o_chain o)
                   {| err := None;
                      assertionName := "Object.ContainsMap";
                      assertType := failureAssertContains;
                      expected := PRaw value;
                      actual := PMap (o_value o) |} σ).2)).
Proof.
  split; [|split].
  - rewrite checkContainsMap_true. split; intros H k iv Hk.
    + destruct (H k iv Hk) as (ov & Hov & Hc). exists ov. split; [done|].
      rewrite containsValue_unfold in Hc.
      destruct ov, iv; auto.
      left. eauto 6.
    + destruct (H k iv Hk) as (ov & Hov & [(ovm & ivm & -> & -> & Hc)|Hd]).
      * exists (Mapping ovm). by rewrite containsValue_Mapping.
      * exists ov. split; [done|]. by apply DeepEqual_containsValue.
  - intros k l Hk Hc. rewrite checkContainsMap_true in Hc.
    destruct (Hc k _ Hk) as (ov & Hov & Hv).
    rewrite containsValue_unfold in Hv. destruct ov; try done.
    apply DeepEqual_Sequence in Hv. eexists. split; [done|]. split.
    + by eapply Forall2_length.
    + intros i x y Hx Hy. eapply Forall2_lookup_lr in Hv; eauto.
  - intros o value σ Ho Hv.
    unfold Object.ContainsMap, Object.containsMap, canonMap, canonValue.
    rewrite !bind_eq, Hv. cbn [ret fst snd negb]. rewrite Ho.
    change (entries (Some outer)) with outer.
    change (entries (Some inner)) with inner.
    destruct (checkContainsMap outer inner); reflexivity.
Qed.

(** ** What the canonicalizer yields *)

Lemma rawWeight_elem (l : list GoValue) x :
  x ∈ l → (rawWeight x < rawWeight (RSlice l))%nat.
Proof.
  simpl. induction 1 as [x l|x y l _ IH]; simpl in *; lia.
Qed.

Lemma rawWeight_lookup (m : gmap string GoValue) k v :
  m !! k = Some v →
  (rawWeight v < rawWeight (RMap m))%nat ∧
  (rawWeight v < rawWeight (RStruct m))%nat.
Proof.
  intros Hk. simpl. apply (fold_sum_ge rawWeight) in Hk. lia.
Qed.

Lemma canon_fields (m : gmap string GoValue)
    (cm : gmap string CanonicalValue) :
  (if bool_decide (map_Forall (λ _, is_Some) (canon <$> m))
   then Some (Mapping (omap id (canon <$> m)))
   else None) = Some (Mapping cm) →
  ∀ k cv, cm !! k = Some cv → ∃ v, m !! k = Some v ∧ canon v = Some cv.
Proof.
  case_bool_decide; [|done]. intros [= <-] k cv.
  rewrite lookup_omap, lookup_fmap.
  destruct (m !! k) as [v|]; [|done]. cbn. eauto.
Qed.

Lemma canon_canonical (v : GoValue) (cv : CanonicalValue) :
  canon v = Some cv → canonical cv.
Proof.
  remember (rawWeight v) as n eqn:Hn. revert v cv Hn.
  induction (lt_wf n) as [n _ IH]. intros v cv -> Hv.
  destruct v; cbn [canon] in Hv; simplify_eq; try done.
  - unfold canonNumber in Hv.
    destruct (finite (float64_of_Z n)) eqn:Hf; by simplify_eq.
  - unfold canonNumber in Hv. destruct (finite f) eqn:Hf; by simplify_eq.
  - destruct (mapM canon l) as [cl|] eqn:Hl; [|done].
    cbn in Hv. simplify_eq. apply mapM_Some in Hl.
    apply canonical_Sequence. intros y Hy.
    apply list_elem_of_lookup in Hy as [i Hi].
    destruct (Forall2_lookup_r _ _ _ _ _ Hl Hi) as (x & Hx & Hxy).
    eapply IH; [|done|done]. eapply rawWeight_elem, list_elem_of_lookup_2, Hx.
  - destruct cv; try (case_bool_decide; done).
    apply canonical_Mapping. intros k cv Hk.
    destruct (canon_fields _ _ Hv k cv Hk) as (x & Hx & Hxc).
    eapply IH; [|done|done]. by eapply rawWeight_lookup.
  - destruct cv; try (case_bool_decide; done).
    apply canonical_Mapping. intros k cv Hk.
    destruct (canon_fields _ _ Hv k cv Hk) as (x & Hx & Hxc).
    eapply IH; [|done|done]. by eapply rawWeight_lookup.
Qed.

(** C2. Containment is reflexive on canonical mappings, those whose
    numbers are all finite, as are all the mappings the canonicalizer
    yields; and it survives the removal of any key from the inner
    mapping. *)
Theorem checkContainsMap_refl_mono :
  (∀ X : gmap string CanonicalValue,
     canonical (Mapping X) → checkContainsMap X X = true) ∧
  (∀ (v : GoValue) (X : gmap string CanonicalValue),
     canon v = Some (Mapping X) → checkContainsMap X X = true) ∧
  (∀ (outer inner : gmap string CanonicalValue) (k : string),
     checkContainsMap outer inner = true →
     checkContainsMap outer (delete k inner) = true).
Proof.
  assert (∀ X : gmap string CanonicalValue,
            canonical (Mapping X) → checkContainsMap X X = true) as Hrefl.
  { intros X HX. rewrite canonical_Mapping in HX.
    apply checkContainsMap_true. intros k iv Hk. exists iv.
    split; [done|]. apply DeepEqual_containsValue, DeepEqual_refl. eauto. }
  split; [exact Hrefl|]. split.
  - intros v X Hv. by eapply Hrefl, canon_canonical.
  - intros outer inner k. rewrite !checkContainsMap_true.
    intros H j iv Hj. apply lookup_delete_Some in Hj as [_ Hj]. eauto.
Qed.

Lemma checkContainsMap_refl_mono_witness :
  let X : gmap string CanonicalValue :=
    {[ "foo" := Number (float64_of_Z 123);
       "bar" := Mapping {[ "a" := Boolean true; "b" := Sequence [Null] ]} ]} in
  let inner : gmap string CanonicalValue :=
    {[ "foo" := Number (float64_of_Z 123);
       "bar" := Mapping {[ "a" := Boolean true ]} ]} in
  canonical (Mapping X) ∧ checkContainsMap X X = true ∧
  checkContainsMap X inner = true ∧
  checkContainsMap X (delete "foo" inner) = true.
Proof.
  intros X inner.
  assert (canonical (Mapping X)) as HX by (vm_compute; tauto).
  assert (checkContainsMap X inner = true) as Hc by (vm_compute; reflexivity).
  split; [exact HX|]. split; [|split; [exact Hc|]].
  - exact (proj1 checkContainsMap_refl_mono X HX).
  - exact (proj2 (proj2 checkContainsMap_refl_mono) X inner "foo" Hc).
Defined.

(** ** Object: keys *)

Lemma containsKey_true (o : Object) (key : string) :
  Object.containsKey o key = true ↔ is_Some (entries (o_value o) !! key).
Proof.
  unfold Object.containsKey. rewrite existsb_exists. split.
  - intros ([k v] & Hin & Hk). apply bool_decide_eq_true in Hk.
    simpl in Hk. subst k. exists v.
    by apply elem_of_map_to_list, list_elem_of_In.
  - intros [v Hv]. exists (key, v). split.
    + by apply list_elem_of_In, elem_of_map_to_list.
    + by apply bool_decide_eq_true.
Qed.

Lemma containsKey_false (o : Object) (key : string) :
  Object.containsKey o key = false ↔ entries (o_value o) !! key = None.
Proof.
  rewrite <- not_true_iff_false, containsKey_true.
  rewrite <- eq_None_not_Some. done.
Qed.

Lemma ContainsKey_missing (o : Object) (key : string) (σ : Heap) :
  entries (o_value o) !! key = None →
  Object.ContainsKey o key σ = (o, (fail (o_chain o) (keyFailure o key) σ).2).
Proof.
  intros Hk. apply containsKey_false in Hk.
  unfold Object.ContainsKey. by rewrite Hk.
Qed.

Lemma ContainsKey_present (o : Object) (key : string) (σ : Heap) :
  is_Some (entries (o_value o) !! key) →
  Object.ContainsKey o key σ = (o, σ).
Proof.
  intros Hk. apply containsKey_true in Hk.
  unfold Object.ContainsKey. by rewrite Hk.
Qed.

(** [ContainsKey] leaves a failed chain failed. *)
Lemma ContainsKey_failbit (o : Object) (key : string) (σ : Heap) :
  failbit (chain_at σ (o_chain o)) = true →
  failbit (chain_at (Object.ContainsKey o key σ).2 (o_chain o)) = true.
Proof.
  intros Hf. unfold Object.ContainsKey.
  destruct (Object.containsKey o key); cbn [negb]; [done|].
  rewrite bind_eq. cbn [ret snd]. apply failbit_fail.
Qed.

(** C3. [ValueEqual] and [ValueNotEqual] run [ContainsKey] and then ask
    the chain whether it has failed: on a missing key the call is the
    [ContainsKey] call and nothing more, so that exactly one failure, the
    key failure, is sent to the reporter, whatever the value compared
    with. *)
Theorem ValueEqual_missing_key
    (o : Object) (key : string) (value : GoValue) (σ : Heap) :
  entries (o_value o) !! key = None →
  Object.ValueEqual o key value σ = Object.ContainsKey o key σ ∧
  Object.ValueNotEqual o key value σ = Object.ContainsKey o key σ ∧
  Object.ContainsKey o key σ =
    (o, (fail (o_chain o) (keyFailure o key) σ).2) ∧
  reports (Object.ValueEqual o key value σ).2 =
    reports σ ++ [(reporter (chain_at σ (o_chain o)), keyFailure o key)] ∧
  reports (Object.ValueNotEqual o key value σ).2 =
    reports σ ++ [(reporter (chain_at σ (o_chain o)), keyFailure o key)].
Proof.
  intros Hk. pose proof (ContainsKey_missing o key σ Hk) as Hc.
  assert (Object.ValueEqual o key value σ = Object.ContainsKey o key σ) as H1.
  { unfold Object.ValueEqual. rewrite !bind_eq. unfold failed at 1.
    rewrite Hc. cbn [fst snd]. by rewrite failbit_fail. }
  assert (Object.ValueNotEqual o key value σ = Object.ContainsKey o key σ)
    as H2.
  { unfold Object.ValueNotEqual. rewrite !bind_eq. unfold failed at 1.
    rewrite Hc. cbn [fst snd]. by rewrite failbit_fail. }
  rewrite H1, H2, Hc. done.
Qed.

Lemma ValueEqual_missing_key_witness :
  entries (o_value sample_object) !! "qux" = None ∧
  reports (Object.ValueEqual sample_object "qux" (RInt 456)
             sample_heap).2 =
    [(7%nat, keyFailure sample_object "qux")].
Proof.
  assert (entries (o_value sample_object) !! "qux" = None) as Hk
    by (vm_compute; reflexivity).
  split; [exact Hk|].
  destruct (ValueEqual_missing_key sample_object "qux" (RInt 456)
              sample_heap Hk) as (_ & _ & _ & -> & _).
  vm_compute. reflexivity.
Defined.

(** C9. On a chain that has already failed, [ValueEqual] and
    [ValueNotEqual] stop after their [ContainsKey] step: the call is the
    [ContainsKey] call, and when the key is present nothing at all is
    recorded, whatever the stored and the given value are. *)
Theorem ValueEqual_already_failed
    (o : Object) (key : string) (value : GoValue) (σ : Heap) :
  failbit (chain_at σ (o_chain o)) = true →
  Object.ValueEqual o key value σ = Object.ContainsKey o key σ ∧
  Object.ValueNotEqual o key value σ = Object.ContainsKey o key σ ∧
  (is_Some (entries (o_value o) !! key) →
   Object.ValueEqual o key value σ = (o, σ) ∧
   Object.ValueNotEqual o key value σ = (o, σ)).
Proof.
  intros Hf. pose proof (ContainsKey_failbit o key σ Hf) as Hf'.
  assert (Object.ValueEqual o key value σ = Object.ContainsKey o key σ) as H1.
  { unfold Object.ValueEqual. rewrite !bind_eq. unfold failed at 1.
    cbn [fst snd]. rewrite Hf'. unfold ret.
    unfold Object.ContainsKey.
    destruct (Object.containsKey o key); reflexivity. }
  assert (Object.ValueNotEqual o key value σ = Object.ContainsKey o key σ)
    as H2.
  { unfold Object.ValueNotEqual. rewrite !bind_eq. unfold failed at 1.
    cbn [fst snd]. rewrite Hf'. unfold ret.
    unfold Object.ContainsKey.
    destruct (Object.containsKey o key); reflexivity. }
  split; [done|]. split; [done|]. intros Hk.
  rewrite H1, H2. by rewrite ContainsKey_present.
Qed.

Lemma ValueEqual_already_failed_witness :
  let σ := (fail (o_chain sample_object) Failure0 sample_heap).2 in
  failbit (chain_at σ (o_chain sample_object)) = true ∧
  DeepEqual (Number (float64_of_Z 1))
            (mapIndex (o_value sample_object) "foo") = false ∧
  Object.ValueEqual sample_object "foo" (RInt 1) σ = (sample_object, σ).
Proof.
  intros σ.
  assert (failbit (chain_at σ (o_chain sample_object)) = true) as Hf
    by (vm_compute; reflexivity).
  split; [exact Hf|]. split; [vm_compute; reflexivity|].
  apply (ValueEqual_already_failed sample_object "foo" (RInt 1) σ Hf).
  vm_compute. eauto.
Defined.

(** ** Match: indexed and named access *)

Lemma Index_in_range (m : Match) (i : Z) (σ : Heap) :
  0 ≤ i < Match.len m →
  ∃ s, submatches m !! Z.to_nat i = Some s ∧
       Match.Index m i σ = ({| s_chain := m_chain m; s_value := s |}, σ).
Proof.
  intros Hi. unfold Match.Index, Match.len in *.
  rewrite !bool_decide_eq_false_2 by lia. cbn [orb].
  destruct (lookup_lt_is_Some_2 (submatches m) (Z.to_nat i)) as [s Hs];
    [lia|].
  exists s. split; [done|]. unfold ret. do 3 f_equal.
  by apply nth_lookup_Some with (d := "") in Hs.
Qed.

Lemma Index_out_of_range (m : Match) (i : Z) (σ : Heap) :
  ¬ (0 ≤ i < Match.len m) →
  Match.Index m i σ =
    ({| s_chain := m_chain m; s_value := "" |},
     (fail (m_chain m) (indexFailure m i) σ).2).
Proof.
  intros Hi. unfold Match.Index.
  destruct (decide (i < 0)).
  - by rewrite bool_decide_eq_true_2.
  - rewrite (bool_decide_eq_false_2 (i < 0)) by done.
    rewrite bool_decide_eq_true_2 by lia. done.
Qed.

(** C4. [Match.Index] within the submatch list returns the submatch at
    that place on the same chain and records nothing; outside it, it
    records one out-of-bounds failure, with the index as [expected] and
    the length as [actual], and returns a wrapper of the empty string on
    the same chain. *)
Theorem Index_spec (m : Match) (i : Z) (σ : Heap) :
  (0 ≤ i < Match.len m →
   ∃ s, submatches m !! Z.to_nat i = Some s ∧
        Match.Index m i σ =
          ({| s_chain := m_chain m; s_value := s |}, σ)) ∧
  (¬ (0 ≤ i < Match.len m) →
   Match.Index m i σ =
     ({| s_chain := m_chain m; s_value := "" |},
      (fail (m_chain m) (indexFailure m i) σ).2) ∧
   reports (Match.Index m i σ).2 =
     reports σ ++ [(reporter (chain_at σ (m_chain m)),
                    {| err := None;
                       assertionName := "Match.Index";
                       assertType := failureAssertOutOfBounds;
                       expected := PInt i;
                       actual := PInt (Z.of_nat (length (submatches m))) |})]).
Proof.
  split.
  - apply Index_in_range.
  - intros Hi. rewrite Index_out_of_range by done. done.
Qed.

(** The name table of [makeMatch]: a name is bound to the last place it
    occupies in [names]; the empty name is never bound. *)
Lemma makeMatch_names (c : chain) (subs names0 : GoStrings)
    (name : string) (i : Z) :
  names (makeMatch c subs names0) !! name = Some i ↔
  name ≠ "" ∧
  ∃ n, i = Z.of_nat n ∧ default [] names0 !! n = Some name ∧
       ∀ n', (n < n')%nat → default [] names0 !! n' ≠ Some name.
Proof.
  unfold makeMatch. cbn [names].
  generalize (default [] names0). intros l.
  induction l as [|x l IH] using rev_ind.
  - cbn. rewrite lookup_empty. split; [done|].
    intros (_ & n & _ & Hn & _). by rewrite lookup_nil in Hn.
  - rewrite imap_app, foldl_app. cbn [imap foldl].
    rewrite Nat.add_0_r.
    assert (∀ n, (l ++ [x]) !! n = Some name ↔
                 l !! n = Some name ∨ (n = length l ∧ x = name)) as Hsnoc.
    { intros n. rewrite lookup_app_Some, list_lookup_singleton_Some.
      split; [|intros [?|[-> ->]]].
      - intros [?|(? & ? & ?)]; [by left|right]. split; [lia|done].
      - by left.
      - right. split; [lia|]. split; [lia|done]. }
    destruct (decide (x = name)) as [->|Hx].
    + destruct (decide (name = "")) as [->|Hne].
      * unfold bindName at 1.
        rewrite bool_decide_eq_true_2 by done. cbn [negb].
        rewrite IH. split; intros [? _]; done.
      * unfold bindName at 1.
        rewrite bool_decide_eq_false_2 by done. cbn [negb].
        rewrite lookup_insert_eq. split.
        -- intros [= <-]. split; [done|]. exists (length l).
           split; [done|]. split.
           ++ apply Hsnoc. by right.
           ++ intros n' Hn'. rewrite lookup_ge_None_2; [done|].
              rewrite length_app. simpl. lia.
        -- intros (_ & n & -> & Hn & Hlast).
           destruct (decide (n = length l)) as [->|Hnl]; [done|].
           exfalso. apply (Hlast (length l)).
           ++ apply lookup_lt_Some in Hn. rewrite length_app in Hn.
              simpl in Hn. lia.
           ++ apply Hsnoc. by right.
    + assert (bindName (foldl bindName ∅
                  (imap (λ n name0, (Z.of_nat n, name0)) l))
                (Z.of_nat (length l), x) !! name =
              foldl bindName ∅
                (imap (λ n name0, (Z.of_nat n, name0)) l) !! name) as ->.
      { unfold bindName at 1.
        destruct (negb (bool_decide (x = ""))); [|done].
        by rewrite lookup_insert_ne. }
      rewrite IH. apply and_iff_compat_l.
      split; intros (n & -> & Hn & Hlast); exists n; (split; [done|]).
      * split; [apply Hsnoc; by left|].
        intros n' Hn' Hn''. apply Hsnoc in Hn'' as [?|[_ ?]]; [|done].
        by eapply Hlast.
      * apply Hsnoc in Hn as [Hn|[_ ?]]; [|done]. split; [done|].
        intros n' Hn' Hn''. eapply Hlast; [done|]. apply Hsnoc. by left.
Qed.

(** C5, as the code has it. The name table is built once, by
    [makeMatch]: a non-empty name is bound to the last place it occupies
    in [names], the empty name is not bound. A bound name is looked up by
    [Match.Index] at the place it is bound to, with the bounds check of
    [Match.Index]. An unbound name records one failure, with the table as
    [expected] and the name as [actual], and a wrapper of the empty
    string on the same chain is returned at once. *)
Theorem Name_spec (m : Match) (name : string) (σ : Heap) :
  (∀ (c : chain) (subs names0 : GoStrings) (i : Z),
     names (makeMatch c subs names0) !! name = Some i ↔
     name ≠ "" ∧
     ∃ n, i = Z.of_nat n ∧ default [] names0 !! n = Some name ∧
          ∀ n', (n < n')%nat → default [] names0 !! n' ≠ Some name) ∧
  (∀ i, names m !! name = Some i →
        Match.Name m name σ = Match.Index m i σ) ∧
  (names m !! name = None →
   Match.Name m name σ =
     ({| s_chain := m_chain m; s_value := "" |},
      (fail (m_chain m) (nameFailure m name) σ).2) ∧
   reports (Match.Name m name σ).2 =
     reports σ ++ [(reporter (chain_at σ (m_chain m)),
                    {| err := None;
                       assertionName := "Match.Name";
                       assertType := failureAssertMatchRe;
                       expected := PNames (names m);
                       actual := PString name |})]).
Proof.
  split; [|split].
  - intros c subs names0 i. apply makeMatch_names.
  - intros i Hi. unfold Match.Name. by rewrite Hi.
  - intros Hn. unfold Match.Name. by rewrite Hn.
Qed.

Lemma Name_spec_witness :
  let m := makeMatch O (Some ["whole"; "example.com"; "john"])
                     (Some [""; "host"; "user"]) in
  names m !! "host" = Some 1 ∧
  Match.Name m "host" empty_heap =
    ({| s_chain := O; s_value := "example.com" |}, empty_heap) ∧
  names m !! "missing" = None ∧
  reports (Match.Name m "missing" empty_heap).2 =
    [(O, nameFailure m "missing")].
Proof.
  intros m.
  assert (names m !! "host" = Some 1) as Hh by (vm_compute; reflexivity).
  assert (names m !! "missing" = None) as Hm by (vm_compute; reflexivity).
  split; [exact Hh|]. split; [|split; [exact Hm|]].
  - rewrite (proj1 (proj2 (Name_spec m "host" empty_heap)) 1 Hh).
    vm_compute. reflexivity.
  - rewrite (proj2 (proj2 (proj2 (Name_spec m "missing" empty_heap)) Hm)).
    vm_compute. reflexivity.
Defined.

(** C5 as worded fails twice. A name may be bound to a place the
    submatch list does not have (no match was found, yet the pattern has
    named groups): the result is then no submatch, and an out-of-bounds
    failure is recorded. And for an unbound name the call goes through
    [Match.Index] at no index whatever: at 0 the result would be the
    whole match, elsewhere a second failure would be recorded. *)
Lemma Name_counterexample :
  let m := makeMatch O None (Some [""; "host"]) in
  let m' := makeMatch O (Some ["whole"]) None in
  (names m !! "host" = Some 1 ∧
   submatches m !! 1%nat = None ∧
   Match.Name m "host" empty_heap =
     ({| s_chain := O; s_value := "" |},
      (fail O (indexFailure m 1) empty_heap).2)) ∧
  (names m' !! "x" = None ∧
   ∀ i, Match.Name m' "x" empty_heap ≠
        (fail (m_chain m') (nameFailure m' "x") ;; Match.Index m' i) empty_heap).
Proof.
  intros m m'. split.
  - split; [vm_compute; reflexivity|].
    split; vm_compute; reflexivity.
  - split; [vm_compute; reflexivity|]. intros i H.
    destruct (decide (0 ≤ i < Match.len m')) as [Hi|Hi].
    + assert (i = 0) as -> by (unfold Match.len in Hi; simpl in Hi; lia).
      vm_compute in H. discriminate H.
    + rewrite bind_eq in H. rewrite Index_out_of_range in H by done.
      apply (f_equal (λ r, length (reports r.2))) in H.
      cbn [snd] in H. rewrite reports_fail in H.
      vm_compute in H. discriminate H.
Qed.

(** ** Match: values *)

Lemma getValues_drop (m : Match) :
  Match.getValues m = drop 1 (submatches m).
Proof.
  unfold Match.getValues, Match.len. case_bool_decide as H; [done|].
  destruct (submatches m) as [|s [|s' l]]; [done|done|].
  simpl in H. lia.
Qed.

(** C6. [Values] and [NotValues] compare their arguments with the
    submatches from place 1 on; place 0, the whole match, takes no part.
    The failure of [Values] is of the equality kind, also when the
    lengths differ, and that of [NotValues] of the inequality kind. *)
Theorem Values_spec (m : Match) (values : GoStrings) (σ : Heap) :
  Match.getValues m = drop 1 (submatches m) ∧
  Match.Values m values σ =
    (if bool_decide (default [] values = drop 1 (submatches m))
     then (m, σ)
     else (m, (fail (m_chain m)
                 {| err := None;
                    assertionName := "Match.Values";
                    assertType := failureAssertEqual;
                    expected := PStrings (default [] values);
                    actual := PStrings (drop 1 (submatches m)) |} σ).2)) ∧
  Match.NotValues m values σ =
    (if bool_decide (default [] values = drop 1 (submatches m))
     then (m, (fail (m_chain m)
                 {| err := None;
                    assertionName := "Match.NotValues";
                    assertType := failureAssertNotEqual;
                    expected := PStrings (default [] values);
                    actual := PNone |} σ).2)
     else (m, σ)) ∧
  (let m := makeMatch O (Some ["http://x/users/y"; "x"; "y"]) None in
   Match.Values m (Some ["x"; "y"]) empty_heap = (m, empty_heap) ∧
   ∃ f, reports (Match.Values m (Some ["x"]) empty_heap).2 = [(O, f)] ∧
        assertType f = failureAssertEqual ∧
        expected f = PStrings ["x"] ∧ actual f = PStrings ["x"; "y"]).
Proof.
  split; [apply getValues_drop|]. split; [|split].
  - unfold Match.Values, DeepEqualStrings. rewrite getValues_drop.
    destruct values as [l|]; unfold default; cbn [from_option id];
      case_bool_decide; reflexivity.
  - unfold Match.NotValues, DeepEqualStrings. rewrite getValues_drop.
    destruct values as [l|]; unfold default; cbn [from_option id];
      case_bool_decide; reflexivity.
  - split; [vm_compute; reflexivity|].
    eexists. split; [vm_compute; reflexivity|]. done.
Qed.

(** ** The canonicalizer and the constructors *)

Lemma canonMap_eq (c : chain) (v : GoValue) (σ : Heap) :
  canonMap c v σ =
  match canon v with
  | Some (Mapping cm) => ((Some cm, true), σ)
  | _ => ((None, false), (fail c invalidInput σ).2)
  end.
Proof.
  unfold canonMap, canonValue. rewrite bind_eq.
  destruct (canon v) as [[]|]; reflexivity.
Qed.

Lemma canon_RMap (m : gmap string GoValue) :
  canon (RMap m) = None ∨ ∃ cm, canon (RMap m) = Some (Mapping cm).
Proof. cbn [canon]. case_bool_decide; eauto. Qed.

Lemma makeChain_fresh (r : Reporter) (σ : Heap) :
  chains σ !! (makeChain r σ).1 = None.
Proof.
  unfold makeChain. cbn [fst]. apply not_elem_of_dom, is_fresh.
Qed.

Lemma makeChain_chain_at (r : Reporter) (σ : Heap) :
  chain_at (makeChain r σ).2 (makeChain r σ).1 =
  {| reporter := r; failbit := false |}.
Proof. unfold makeChain, chain_at. cbn. by rewrite lookup_insert_eq. Qed.

Lemma makeChain_chain_at_ne (r : Reporter) (σ : Heap) (c : chain) :
  c ≠ (makeChain r σ).1 →
  chain_at (makeChain r σ).2 c = chain_at σ c.
Proof.
  intros Hc. unfold makeChain, chain_at in *. cbn in *.
  by rewrite lookup_insert_ne.
Qed.

Lemma makeChain_reports (r : Reporter) (σ : Heap) :
  reports (makeChain r σ).2 = reports σ.
Proof. reflexivity. Qed.

(** C7. A constructor returns a wrapper on a chain no wrapper had
    before, that reports to the given reporter, and no other chain is
    touched. For [NewMatch], and for [NewObject] on a map that
    canonicalizes, the chain is in state ok and nothing is reported. For
    [NewObject] on the nil map, and on a map that does not canonicalize,
    the chain is in state failed and exactly one failure, of kind
    invalid input, has been reported; the wrapper then holds the nil
    map. *)
Theorem constructors_chain (r : Reporter) (σ : Heap) :
  (∀ subs names0 : GoStrings,
     let res := NewMatch r subs names0 σ in
     chains σ !! m_chain res.1 = None ∧
     (∀ c, c ≠ m_chain res.1 → chain_at res.2 c = chain_at σ c) ∧
     res.1 = makeMatch (m_chain res.1) subs names0 ∧
     chain_at res.2 (m_chain res.1) = {| reporter := r; failbit := false |} ∧
     reports res.2 = reports σ) ∧
  (∀ value : option (gmap string GoValue),
     let res := NewObject r value σ in
     chains σ !! o_chain res.1 = None ∧
     (∀ c, c ≠ o_chain res.1 → chain_at res.2 c = chain_at σ c) ∧
     reporter (chain_at res.2 (o_chain res.1)) = r ∧
     match value with
     | None =>
         o_value res.1 = None ∧
         failbit (chain_at res.2 (o_chain res.1)) = true ∧
         reports res.2 =
           reports σ ++ [(r, {| err := Some "expected non-nil map value";
                                assertionName := "";
                                assertType := failureInvalidInput;
                                expected := PNone; actual := PNone |})]
     | Some m =>
         match canon (RMap m) with
         | Some (Mapping cm) =>
             o_value res.1 = Some cm ∧
             failbit (chain_at res.2 (o_chain res.1)) = false ∧
             reports res.2 = reports σ
         | _ =>
             o_value res.1 = None ∧
             failbit (chain_at res.2 (o_chain res.1)) = true ∧
             ∃ f, reports res.2 = reports σ ++ [(r, f)] ∧
                  assertType f = failureInvalidInput
         end
     end).
Proof.
  split.
  - intros subs names0 res. subst res. unfold NewMatch. rewrite bind_eq.
    cbn [ret fst snd]. change (m_chain (makeMatch ?c _ _)) with c.
    split; [apply makeChain_fresh|].
    split; [intros c Hc; by apply makeChain_chain_at_ne|].
    split; [done|]. split; [apply makeChain_chain_at|done].
  - intros value res. subst res. unfold NewObject. rewrite bind_eq.
    pose proof (makeChain_fresh r σ) as Hfresh.
    pose proof (makeChain_chain_at r σ) as Hat.
    pose proof (makeChain_chain_at_ne r σ) as Hne.
    pose proof (makeChain_reports r σ) as Hrep.
    destruct (makeChain r σ) as [c σ1]. cbn [fst snd] in *.
    assert (∀ f, reports (fail c f σ1).2 = reports σ ++ [(r, f)]) as Hfail.
    { intros f. by rewrite reports_fail, Hat, Hrep. }
    destruct value as [m|].
    + rewrite bind_eq, canonMap_eq.
      destruct (canon (RMap m)) as [[]|]; cbn [ret fst snd o_chain o_value].
      all: split; [done|].
      all: try (split; [intros c' Hc'; rewrite chain_at_fail_ne by done;
                        by apply Hne|]).
      all: try (split; [rewrite reporter_fail; by rewrite Hat|]).
      all: try (split; [done|]; split; [apply failbit_fail|]; eauto).
      split; [by apply Hne|]. split; [by rewrite Hat|].
      split; [done|]. split; [by rewrite Hat|done].
    + rewrite bind_eq. cbn [ret fst snd o_chain o_value].
      split; [done|].
      split; [intros c' Hc'; rewrite chain_at_fail_ne by done; by apply Hne|].
      split; [rewrite reporter_fail; by rewrite Hat|].
      split; [done|]. split; [apply failbit_fail|apply Hfail].
Qed.

(** ** Object: emptiness *)

Lemma canon_empty_map : canon (RMap ∅) = Some (Mapping ∅).
Proof. vm_compute. reflexivity. Qed.

Lemma DeepEqualMap_empty (v : GoMap) :
  DeepEqualMap (Some ∅) v = true ↔ v = Some ∅.
Proof.
  destruct v as [m|]; [|done]. unfold DeepEqualMap.
  rewrite DeepEqual_Mapping. split.
  - intros [Hs _]. f_equal. symmetry in Hs. rewrite map_size_empty in Hs.
    by apply map_size_empty_iff in Hs.
  - intros [= ->]. split; [done|]. intros k v. by rewrite lookup_empty.
Qed.

(** C10. [Empty] is [Equal] at the empty map and [NotEmpty] is
    [NotEqual] at the empty map: [Empty] records nothing when the payload
    is the empty (non-nil) map, and otherwise a failure of the equality
    kind under the name [Object.Equal]; [NotEmpty] records, when the
    payload is the empty map and only then, a failure of the inequality
    kind under the name [Object.NotEqual]. *)
Theorem Empty_is_Equal (o : Object) (σ : Heap) :
  Object.Empty o σ = Object.Equal o (RMap ∅) σ ∧
  Object.NotEmpty o σ = Object.NotEqual o (RMap ∅) σ ∧
  (o_value o = Some ∅ →
   Object.Empty o σ = (o, σ) ∧
   Object.NotEmpty o σ = (o, (fail (o_chain o) notEmptyFailure σ).2)) ∧
  (o_value o ≠ Some ∅ →
   Object.Empty o σ = (o, (fail (o_chain o) (emptyFailure o) σ).2) ∧
   Object.NotEmpty o σ = (o, σ)) ∧
  assertType (emptyFailure o) = failureAssertEqual ∧
  assertType notEmptyFailure = failureAssertNotEqual.
Proof.
  split; [done|]. split; [done|].
  unfold Object.Empty, Object.NotEmpty, Object.Equal, Object.NotEqual.
  rewrite !bind_eq, !canonMap_eq, !canon_empty_map. cbn [fst snd negb].
  split; [|split; [|done]].
  - intros He. pose proof (proj2 (DeepEqualMap_empty (o_value o)) He) as ->.
    done.
  - intros He. destruct (DeepEqualMap (Some ∅) (o_value o)) eqn:Hd.
    + by apply DeepEqualMap_empty in Hd.
    + done.
Qed.

Lemma Empty_is_Equal_witness :
  let empty := {| o_chain := O; o_value := Some ∅ |} in
  let nil := {| o_chain := O; o_value := None |} in
  (o_value empty = Some ∅ ∧ Object.Empty empty empty_heap = (empty, empty_heap)) ∧
  (o_value sample_object ≠ Some ∅ ∧
   reports (Object.Empty sample_object sample_heap).2 =
     [(7%nat, emptyFailure sample_object)]) ∧
  (o_value nil ≠ Some ∅ ∧ Object.NotEmpty nil empty_heap = (nil, empty_heap)).
Proof.
  intros empty nil.
  assert (o_value sample_object ≠ Some ∅) as Hs.
  { intros H. apply (f_equal (λ v, size (entries v))) in H.
    vm_compute in H. discriminate H. }
  assert (o_value nil ≠ Some ∅) as Hn by done.
  split; [|split].
  - split; [done|].
    exact (proj1 (proj1 (proj2 (proj2 (Empty_is_Equal empty empty_heap))) eq_refl)).
  - split; [exact Hs|].
    rewrite (proj1 (proj1 (proj2 (proj2 (proj2
               (Empty_is_Equal sample_object sample_heap)))) Hs)).
    vm_compute. reflexivity.
  - split; [exact Hn|].
    exact (proj2 (proj1 (proj2 (proj2 (proj2 (Empty_is_Equal nil empty_heap)))) Hn)).
Defined.

(** ** Frame: what a method may write *)

Lemma writes_through_refl (c : chain) (σ : Heap) : writes_through c σ σ.
Proof.
  split; [done|]. split; [done|]. split; [done|].
  exists []. by rewrite app_nil_r.
Qed.

Lemma writes_through_trans (c : chain) (σ1 σ2 σ3 : Heap) :
  writes_through c σ1 σ2 → writes_through c σ2 σ3 →
  writes_through c σ1 σ3.
Proof.
  intros (Ho & Hr & Hf & fs & Hfs) (Ho' & Hr' & Hf' & fs' & Hfs').
  split; [|split; [|split]].
  - intros c' Hc'. rewrite Ho' by done. by apply Ho.
  - congruence.
  - auto.
  - exists (fs ++ fs'). rewrite Hfs', Hfs, Hr, map_app. by rewrite app_assoc.
Qed.

Lemma writes_through_fail (c : chain) (f : Failure) (σ : Heap) :
  writes_through c σ (fail c f σ).2.
Proof.
  split; [|split; [|split]].
  - intros c' Hc'. unfold fail. cbn. by rewrite lookup_insert_ne.
  - apply reporter_fail.
  - intros _. apply failbit_fail.
  - exists [f]. apply reports_fail.
Qed.

Lemma frame_ret {A} (c : chain) (a : A) : frame c (ret a).
Proof. intros σ. apply writes_through_refl. Qed.

Lemma frame_bind {A B} (c : chain) (m : M A) (k : A → M B) :
  frame c m → (∀ a, frame c (k a)) → frame c (x <- m ;; k x).
Proof.
  intros Hm Hk σ. rewrite bind_eq.
  eapply writes_through_trans; [apply Hm | apply Hk].
Qed.

Lemma frame_fail (c : chain) (f : Failure) : frame c (fail c f).
Proof. intros σ. apply writes_through_fail. Qed.

Lemma frame_failed (c : chain) : frame c (failed c).
Proof. intros σ. apply writes_through_refl. Qed.

Lemma frame_canonValue (c : chain) (v : GoValue) : frame c (canonValue c v).
Proof.
  unfold canonValue. destruct (canon v).
  - apply frame_ret.
  - apply frame_bind; [apply frame_fail | intros; apply frame_ret].
Qed.

Lemma frame_canonMap (c : chain) (v : GoValue) : frame c (canonMap c v).
Proof.
  unfold canonMap. apply frame_bind; [apply frame_canonValue|].
  intros [cv ok]. cbn [fst snd]. destruct ok; [|apply frame_ret].
  destruct cv; try apply frame_ret;
    (apply frame_bind; [apply frame_fail | intros; apply frame_ret]).
Qed.

Create HintDb frame.
#[local] Hint Resolve frame_ret frame_fail frame_failed frame_canonValue
  frame_canonMap : frame.

(** Walks a method body: a bind, a branch, a primitive. *)
Ltac frame_step :=
  match goal with
  | |- frame _ (bind _ _) => apply frame_bind; [|intros ?]
  | |- frame _ (if ?b then _ else _) => destruct b
  | |- frame _ (match ?x with _ => _ end) => destruct x
  | |- frame _ _ => solve [auto with frame]
  end.

Ltac frame_walk := cbn beta zeta; repeat frame_step.

Lemma frame_Value (o : Object) key : frame (o_chain o) (Object.Value o key).
Proof. unfold Object.Value. frame_walk. Qed.

Lemma frame_Equal (o : Object) v : frame (o_chain o) (Object.Equal o v).
Proof. unfold Object.Equal. frame_walk. Qed.

Lemma frame_NotEqual (o : Object) v : frame (o_chain o) (Object.NotEqual o v).
Proof. unfold Object.NotEqual. frame_walk. Qed.

Lemma frame_ContainsKey (o : Object) key :
  frame (o_chain o) (Object.ContainsKey o key).
Proof. unfold Object.ContainsKey. frame_walk. Qed.

Lemma frame_NotContainsKey (o : Object) key :
  frame (o_chain o) (Object.NotContainsKey o key).
Proof. unfold Object.NotContainsKey. frame_walk. Qed.

Lemma frame_containsMap (o : Object) v :
  frame (o_chain o) (Object.containsMap o v).
Proof. unfold Object.containsMap. frame_walk. Qed.

#[local] Hint Resolve frame_ContainsKey frame_containsMap : frame.

Lemma frame_ContainsMap (o : Object) v :
  frame (o_chain o) (Object.ContainsMap o v).
Proof. unfold Object.ContainsMap. frame_walk. Qed.

Lemma frame_NotContainsMap (o : Object) v :
  frame (o_chain o) (Object.NotContainsMap o v).
Proof. unfold Object.NotContainsMap. frame_walk. Qed.

Lemma frame_ValueEqual (o : Object) key v :
  frame (o_chain o) (Object.ValueEqual o key v).
Proof. unfold Object.ValueEqual. frame_walk. Qed.

Lemma frame_ValueNotEqual (o : Object) key v :
  frame (o_chain o) (Object.ValueNotEqual o key v).
Proof. unfold Object.ValueNotEqual. frame_walk. Qed.

Lemma frame_Index (m : Match) i : frame (m_chain m) (Match.Index m i).
Proof. unfold Match.Index. frame_walk. Qed.

#[local] Hint Resolve frame_Index : frame.

Lemma frame_Name (m : Match) name : frame (m_chain m) (Match.Name m name).
Proof. unfold Match.Name. frame_walk. Qed.

Lemma frame_Match_Empty (m : Match) : frame (m_chain m) (Match.Empty m).
Proof. unfold Match.Empty. frame_walk. Qed.

Lemma frame_Match_NotEmpty (m : Match) : frame (m_chain m) (Match.NotEmpty m).
Proof. unfold Match.NotEmpty. frame_walk. Qed.

Lemma frame_Values (m : Match) vs : frame (m_chain m) (Match.Values m vs).
Proof. unfold Match.Values. frame_walk. Qed.

Lemma frame_NotValues (m : Match) vs : frame (m_chain m) (Match.NotValues m vs).
Proof. unfold Match.NotValues. frame_walk. Qed.

(** ** Frame: what a method hands back *)

(** A fluent method returns its receiver. *)
Ltac returns_receiver :=
  intros; unfold bind, ret; cbn [fst snd];
  repeat match goal with
         | |- context [if ?b then _ else _] => destruct b
         | |- context [match ?x with _ => _ end] => destruct x
         end;
  reflexivity.

Lemma Object_fluent (o : Object) (σ : Heap) :
  (∀ v, (Object.Equal o v σ).1 = o) ∧
  (∀ v, (Object.NotEqual o v σ).1 = o) ∧
  (∀ k, (Object.ContainsKey o k σ).1 = o) ∧
  (∀ k, (Object.NotContainsKey o k σ).1 = o) ∧
  (∀ v, (Object.ContainsMap o v σ).1 = o) ∧
  (∀ v, (Object.NotContainsMap o v σ).1 = o) ∧
  (∀ k v, (Object.ValueEqual o k v σ).1 = o) ∧
  (∀ k v, (Object.ValueNotEqual o k v σ).1 = o).
Proof.
  repeat split.
  - unfold Object.Equal. returns_receiver.
  - unfold Object.NotEqual. returns_receiver.
  - unfold Object.ContainsKey. returns_receiver.
  - unfold Object.NotContainsKey. returns_receiver.
  - unfold Object.ContainsMap. returns_receiver.
  - unfold Object.NotContainsMap. returns_receiver.
  - unfold Object.ValueEqual. returns_receiver.
  - unfold Object.ValueNotEqual. returns_receiver.
Qed.

Lemma Match_fluent (m : Match) (σ : Heap) :
  (Match.Empty m σ).1 = m ∧
  (Match.NotEmpty m σ).1 = m ∧
  (∀ vs, (Match.Values m vs σ).1 = m) ∧
  (∀ vs, (Match.NotValues m vs σ).1 = m).
Proof.
  repeat split.
  - unfold Match.Empty. returns_receiver.
  - unfold Match.NotEmpty. returns_receiver.
  - unfold Match.Values. returns_receiver.
  - unfold Match.NotValues. returns_receiver.
Qed.

Lemma Value_chain (o : Object) (key : string) (σ : Heap) :
  v_chain (Object.Value o key σ).1 = o_chain o.
Proof. unfold Object.Value. by destruct (entries (o_value o) !! key). Qed.

Lemma Index_chain (m : Match) (i : Z) (σ : Heap) :
  s_chain (Match.Index m i σ).1 = m_chain m.
Proof.
  unfold Match.Index.
  by destruct (bool_decide (i < 0) || bool_decide (i >= Match.len m)).
Qed.

Lemma Name_chain (m : Match) (name : string) (σ : Heap) :
  s_chain (Match.Name m name σ).1 = m_chain m.
Proof.
  unfold Match.Name. destruct (names m !! name); [apply Index_chain|done].
Qed.

Section payload.
(** The two helpers of the JSON-path and JSON-schema integration, which
    are handed the chain and the payload of the object. *)
Variable getPath : chain → GoMap → string → M Value.
Variable checkSchema : chain → GoMap → GoValue → M ().

(** They, too, write through the chain they are handed, and [getPath]
    returns a wrapper on it. *)
Hypothesis getPath_chain :
  ∀ c v path σ, v_chain (getPath c v path σ).1 = c.
Hypothesis getPath_frame : ∀ c v path, frame c (getPath c v path).
Hypothesis checkSchema_frame : ∀ c v schema, frame c (checkSchema c v schema).

End payload.


Lemma Index_spec_witness :
  let m := makeMatch O (Some ["whole"; "example.com"; "john"]) None in
  (0 ≤ 2 < Match.len m ∧
   Match.Index m 2 empty_heap = ({| s_chain := O; s_value := "john" |}, empty_heap)) ∧
  (¬ (0 ≤ 3 < Match.len m) ∧
   reports (Match.Index m 3 empty_heap).2 = [(O, indexFailure m 3)] ∧
   expected (indexFailure m 3) = PInt 3 ∧
   actual (indexFailure m 3) = PInt 3) ∧
  (¬ (0 ≤ -1 < Match.len m) ∧
   (Match.Index m (-1) empty_heap).1 = {| s_chain := O; s_value := "" |}).
Proof.
  intros m.
  assert (0 ≤ 2 < Match.len m) as H2 by (vm_compute; split; congruence).
  assert (¬ (0 ≤ 3 < Match.len m)) as H3
    by (unfold Match.len; simpl; lia).
  assert (¬ (0 ≤ -1 < Match.len m)) as H1 by lia.
  split; [|split].
  - split; [exact H2|].
    destruct (proj1 (Index_spec m 2 empty_heap) H2) as (s & Hs & ->).
    vm_compute in Hs. by simplify_eq.
  - split; [exact H3|].
    rewrite (proj2 (proj2 (Index_spec m 3 empty_heap) H3)).
    vm_compute. done.
  - split; [exact H1|].
    by rewrite (proj1 (proj2 (Index_spec m (-1) empty_heap) H1)).
Defined.

Lemma checkContainsMap_spec_witness :
  let outer : gmap string CanonicalValue :=
    {[ "a" := Sequence [Number (float64_of_Z 1); Number (float64_of_Z 2);
                        Number (float64_of_Z 3)] ]} in
  let inner : gmap string CanonicalValue :=
    {[ "a" := Sequence [Number (float64_of_Z 1); Number (float64_of_Z 2)] ]} in
  inner !! "a" = Some (Sequence [Number (float64_of_Z 1);
                                 Number (float64_of_Z 2)]) ∧
  checkContainsMap outer inner ≠ true.
Proof.
  intros outer inner.
  assert (inner !! "a" = Some (Sequence [Number (float64_of_Z 1);
                                         Number (float64_of_Z 2)])) as Hk
    by (vm_compute; reflexivity).
  split; [exact Hk|]. intros Hc.
  destruct (proj1 (proj2 (checkContainsMap_spec outer inner)) "a" _ Hk Hc)
    as (l' & Hl' & Hlen & _).
  vm_compute in Hl'. simplify_eq.
Defined.

(** ** The examples of the package documentation *)

(** The object of the documentation of [ContainsMap], with its slice. *)
Example ContainsMap_documented :
  let o := (NewObject O
              (Some {[ "foo" := RInt 123;
                       "baz" := RSlice [RString "x"; RString "y"];
                       "bar" := RMap {[ "a" := RBool true;
                                        "b" := RBool false ]} ]})
              empty_heap) in
  reports (Object.ContainsMap o.1
             (RMap {[ "foo" := RInt 123;
                      "bar" := RMap {[ "a" := RBool true ]} ]}) o.2).2 = [] ∧
  assertType <$> (reports (Object.ContainsMap o.1
                             (RMap {[ "foo" := RInt 123;
                                      "qux" := RInt 456 ]}) o.2).2).*2
    = [failureAssertContains] ∧
  assertType <$> (reports (Object.ContainsMap o.1
                             (RMap {[ "baz" := RSlice [RString "x"] ]})
                             o.2).2).*2
    = [failureAssertContains] ∧
  reports (Object.NotContainsMap o.1
             (RMap {[ "foo" := RInt 123; "bar" := RString "no-no-no" ]})
             o.2).2 = [].
Proof. vm_compute. done. Qed.

Example ValueNotEqual_documented :
  reports (Object.ValueNotEqual sample_object "foo" (RString "bad value")
             sample_heap).2 = [] ∧
  assertType <$> (reports (Object.ValueNotEqual sample_object "bar"
                             (RMap {[ "a" := RBool true ]})
                             sample_heap).2).*2 = [] ∧
  assertType <$> (reports (Object.ValueNotEqual sample_object "qux"
                             (RString "bad value") sample_heap).2).*2
    = [failureAssertKey] ∧
  reports (Object.ValueEqual sample_object "foo" (RFloat (float64_of_Z 123))
             sample_heap).2 = [].
Proof. vm_compute. done. Qed.

Example Match_documented :
  let m := (NewMatch O (Some ["http://example.com/users/john";
                              "example.com"; "john"])
                       (Some [""; "host"; "user"]) empty_heap) in
  s_value (Match.Index m.1 0 m.2).1 = "http://example.com/users/john" ∧
  s_value (Match.Index m.1 1 m.2).1 = "example.com" ∧
  s_value (Match.Name m.1 "user" m.2).1 = "john" ∧
  reports (Match.Name m.1 "user" m.2).2 = [] ∧
  reports (Match.NotEmpty m.1 m.2).2 = [] ∧
  reports (Match.Values m.1 (Some ["example.com"; "john"]) m.2).2 = [] ∧
  reports (Match.NotValues m.1 (Some ["example.com"; "bob"]) m.2).2 = [] ∧
  n_value (Match.Length m.1) = float64_of_Z 3.
Proof. vm_compute. done. Qed.

(** * Further properties *)

(** ** Deep equality is a partial equivalence *)

Lemma SFeqb_true (f1 f2 : spec_float) :
  SFeqb f1 f2 = true ↔
  match f1, f2 with
  | S754_zero _, S754_zero _ => True
  | S754_infinity s1, S754_infinity s2 => s1 = s2
  | S754_finite s1 m1 e1, S754_finite s2 m2 e2 =>
      s1 = s2 ∧ m1 = m2 ∧ e1 = e2
  | _, _ => False
  end.
Proof.
  unfold SFeqb, SFcompare.
  destruct f1 as [s1|s1| |s1 m1 e1], f2 as [s2|s2| |s2 m2 e2];
    try (split; [done|tauto]); try (destruct s1; split; done);
    try (destruct s2; split; done).
  - destruct s1, s2; split; done.
  - destruct (Z.compare_spec e1 e2) as [->|?|?];
      [|destruct s1, s2; split; (done || lia)..].
    rewrite Pos.compare_cont_spec. cbn [Pos.switch_Eq].
    destruct (Pos.compare_spec m1 m2) as [->|?|?];
      destruct s1, s2; cbn; split; (done || (intros (? & ? & ?); lia)).
Qed.

Lemma SFeqb_sym (f1 f2 : spec_float) : SFeqb f1 f2 = SFeqb f2 f1.
Proof.
  apply eq_true_iff_eq. rewrite !SFeqb_true.
  destruct f1, f2; intuition congruence.
Qed.

Lemma SFeqb_trans (f1 f2 f3 : spec_float) :
  SFeqb f1 f2 = true → SFeqb f2 f3 = true → SFeqb f1 f3 = true.
Proof.
  rewrite !SFeqb_true. destruct f1, f2, f3; intuition congruence.
Qed.

Lemma DeepEqual_sym (x y : CanonicalValue) :
  DeepEqual x y = true → DeepEqual y x = true.
Proof.
  revert y.
  induction x as [|b|f|s|l IH|m IH] using CanonicalValue_tree_ind;
    intros y Hxy; destruct y; try done.
  - simpl in *. apply bool_decide_eq_true in Hxy.
    by apply bool_decide_eq_true.
  - simpl in *. by rewrite SFeqb_sym.
  - simpl in *. apply bool_decide_eq_true in Hxy.
    by apply bool_decide_eq_true.
  - apply DeepEqual_Sequence in Hxy. apply DeepEqual_Sequence.
    apply Forall2_same_length_lookup in Hxy as [Hlen Hxy].
    apply Forall2_same_length_lookup. split; [done|].
    intros i y x Hy Hx. eapply IH; [|by eapply Hxy].
    by eapply list_elem_of_lookup_2.
  - apply DeepEqual_Mapping in Hxy as [Hs Hxy]. apply DeepEqual_Mapping.
    split; [done|]. intros k v2 Hk.
    destruct (same_size_same_keys m m0 Hs) with (k := k) as [v1 Hv1].
    { intros i [v Hi]. destruct (Hxy i v Hi) as (? & ? & _). eauto. }
    { eauto. }
    destruct (Hxy k v1 Hv1) as (v2' & Hv2' & Hd). simplify_eq.
    exists v1. split; [done|]. by eapply IH.
Qed.

Lemma DeepEqual_trans (x y z : CanonicalValue) :
  DeepEqual x y = true → DeepEqual y z = true → DeepEqual x z = true.
Proof.
  revert y z.
  induction x as [|b|f|s|l IH|m IH] using CanonicalValue_tree_ind;
    intros y z Hxy Hyz; destruct y; try done; destruct z; try done.
  - simpl in *. apply bool_decide_eq_true in Hxy, Hyz.
    apply bool_decide_eq_true. congruence.
  - simpl in *. by eapply SFeqb_trans.
  - simpl in *. apply bool_decide_eq_true in Hxy, Hyz.
    apply bool_decide_eq_true. congruence.
  - apply DeepEqual_Sequence in Hxy, Hyz. apply DeepEqual_Sequence.
    apply Forall2_same_length_lookup in Hxy as [Hlen Hxy].
    apply Forall2_same_length_lookup in Hyz as [Hlen' Hyz].
    apply Forall2_same_length_lookup. split; [congruence|].
    intros i x z Hx Hz.
    destruct (lookup_lt_is_Some_2 l0 i) as [y Hy].
    { rewrite <- Hlen. by eapply lookup_lt_Some. }
    eapply IH; [by eapply list_elem_of_lookup_2|by eapply Hxy|by eapply Hyz].
  - apply DeepEqual_Mapping in Hxy as [Hs Hxy].
    apply DeepEqual_Mapping in Hyz as [Hs' Hyz].
    apply DeepEqual_Mapping. split; [congruence|]. intros k v1 Hk.
    destruct (Hxy k v1 Hk) as (v2 & Hv2 & Hd).
    destruct (Hyz k v2 Hv2) as (v3 & Hv3 & Hd').
    exists v3. split; [done|]. by eapply IH.
Qed.

(** ** Containment is an order *)

Lemma containsValue_trans (c a b : CanonicalValue) :
  containsValue a b = true → containsValue b c = true →
  containsValue a c = true.
Proof.
  revert a b.
  induction c as [|x|f|s|l IH|mc IH] using CanonicalValue_tree_ind;
    intros a b Hab Hbc; rewrite containsValue_unfold in Hab, Hbc |- *.
  1-5: destruct b; try done; destruct a; try done;
       by eapply DeepEqual_trans.
  destruct b as [| | | | |mb]; try done.
  destruct a as [| | | | |ma]; try done.
  rewrite checkContainsMap_true in Hab, Hbc |- *. intros k cv Hk.
  destruct (Hbc k cv Hk) as (bv & Hbv & Hb).
  destruct (Hab k bv Hbv) as (av & Hav & Ha).
  exists av. split; [done|]. by eapply IH.
Qed.

Lemma containsValue_antisym (a b : CanonicalValue) :
  containsValue a b = true → containsValue b a = true →
  DeepEqual a b = true.
Proof.
  revert b.
  induction a as [|x|f|s|l IH|ma IH] using CanonicalValue_tree_ind;
    intros b Hab Hba; rewrite containsValue_unfold in Hab, Hba.
  1-5: destruct b; done.
  destruct b as [| | | | |mb]; try done.
  rewrite checkContainsMap_true in Hab, Hba. apply DeepEqual_Mapping.
  assert (dom ma = dom mb) as Hdom.
  { apply set_eq. intros k. rewrite !elem_of_dom. split; intros [v Hv].
    - destruct (Hba k v Hv) as (? & ? & _). eauto.
    - destruct (Hab k v Hv) as (? & ? & _). eauto. }
  split.
  { rewrite <- !size_dom. by rewrite Hdom. }
  intros k v1 Hv1. destruct (Hba k v1 Hv1) as (v2 & Hv2 & H21).
  destruct (Hab k v2 Hv2) as (v1' & Hv1' & H12). simplify_eq.
  exists v2. split; [done|]. by eapply IH.
Qed.

(** X1. Keys the outer mapping has beyond those asked for never break
    containment: what a mapping contains, every mapping that extends it
    contains. *)
Theorem checkContainsMap_outer_mono
    (outer outer' inner : gmap string CanonicalValue) :
  outer ⊆ outer' →
  checkContainsMap outer inner = true →
  checkContainsMap outer' inner = true.
Proof.
  intros Hsub. rewrite !checkContainsMap_true. intros H k iv Hk.
  destruct (H k iv Hk) as (ov & Hov & Hc). exists ov. split; [|done].
  by eapply lookup_weaken.
Qed.

Lemma checkContainsMap_outer_mono_witness :
  let outer : gmap string CanonicalValue := {[ "a" := Boolean true ]} in
  let outer' : gmap string CanonicalValue :=
    {[ "a" := Boolean true; "b" := Null ]} in
  outer ⊆ outer' ∧ checkContainsMap outer outer = true ∧
  checkContainsMap outer' outer = true.
Proof.
  intros outer outer'.
  assert (outer ⊆ outer') as Hsub.
  { apply map_subseteq_spec. intros k v Hk.
    apply lookup_singleton_Some in Hk as [<- <-]. by vm_compute. }
  assert (checkContainsMap outer outer = true) as Hc
    by (vm_compute; reflexivity).
  split; [exact Hsub|]. split; [exact Hc|].
  exact (checkContainsMap_outer_mono outer outer' outer Hsub Hc).
Defined.

(** X2. Containment is transitive. *)
Theorem checkContainsMap_trans (a b c : gmap string CanonicalValue) :
  checkContainsMap a b = true → checkContainsMap b c = true →
  checkContainsMap a c = true.
Proof.
  rewrite <- !containsValue_Mapping. apply containsValue_trans.
Qed.

Lemma checkContainsMap_trans_witness :
  let a : gmap string CanonicalValue :=
    {[ "x" := Mapping {[ "p" := Null; "q" := Str "s" ]}; "y" := Null ]} in
  let b : gmap string CanonicalValue :=
    {[ "x" := Mapping {[ "p" := Null; "q" := Str "s" ]} ]} in
  let c : gmap string CanonicalValue :=
    {[ "x" := Mapping {[ "q" := Str "s" ]} ]} in
  checkContainsMap a b = true ∧ checkContainsMap b c = true ∧
  checkContainsMap a c = true.
Proof.
  intros a b c.
  assert (checkContainsMap a b = true) as Hab by (vm_compute; reflexivity).
  assert (checkContainsMap b c = true) as Hbc by (vm_compute; reflexivity).
  split; [exact Hab|]. split; [exact Hbc|].
  exact (checkContainsMap_trans a b c Hab Hbc).
Defined.


(** ** Object: lookups *)

(** Recording a failure changes the store. *)
Lemma fail_neq (c : chain) (f : Failure) (σ : Heap) : (fail c f σ).2 ≠ σ.
Proof.
  intros H. apply (f_equal (λ σ', length (reports σ'))) in H.
  rewrite reports_fail, length_app in H. simpl in H. lia.
Qed.

Lemma pair_fail_neq {A} (a b : A) (c : chain) (f : Failure) (σ : Heap) :
  (a, (fail c f σ).2) ≠ (b, σ).
Proof. intros [= _ H]. by apply fail_neq in H. Qed.

Lemma NotContainsKey_missing (o : Object) (key : string) (σ : Heap) :
  entries (o_value o) !! key = None →
  Object.NotContainsKey o key σ = (o, σ).
Proof.
  intros Hk. apply containsKey_false in Hk.
  unfold Object.NotContainsKey. by rewrite Hk.
Qed.

Lemma NotContainsKey_present (o : Object) (key : string) (σ : Heap) :
  is_Some (entries (o_value o) !! key) →
  Object.NotContainsKey o key σ =
    (o, (fail (o_chain o) (notKeyFailure o key) σ).2).
Proof.
  intros Hk. apply containsKey_true in Hk.
  unfold Object.NotContainsKey. by rewrite Hk.
Qed.

(** X4. [Value] returns the value stored under a key the object has, on
    the chain of the object, and records nothing; under a key it has
    not, it records one key failure and returns a wrapper of [nil]. It
    records a failure for exactly the keys [ContainsKey] records one
    for, though one looks the key up and the other walks the map. *)
Theorem Value_spec (o : Object) (key : string) (σ : Heap) :
  (∀ v, entries (o_value o) !! key = Some v →
        Object.Value o key σ =
          ({| v_chain := o_chain o; v_value := v |}, σ)) ∧
  (entries (o_value o) !! key = None →
   Object.Value o key σ =
     ({| v_chain := o_chain o; v_value := Null |},
      (fail (o_chain o) (valueFailure o key) σ).2)) ∧
  ((Object.Value o key σ).2 = σ ↔ (Object.ContainsKey o key σ).2 = σ).
Proof.
  split; [|split].
  - intros v Hv. unfold Object.Value. by rewrite Hv.
  - intros Hv. unfold Object.Value. by rewrite Hv.
  - unfold Object.Value.
    destruct (entries (o_value o) !! key) as [v|] eqn:Hv.
    + by rewrite ContainsKey_present.
    + rewrite ContainsKey_missing by done. rewrite bind_eq. cbn [ret snd].
      split; intros H; by apply fail_neq in H.
Qed.

Lemma Value_spec_witness :
  entries (o_value sample_object) !! "foo" =
    Some (Number (float64_of_Z 123)) ∧
  Object.Value sample_object "foo" sample_heap =
    ({| v_chain := o_chain sample_object;
        v_value := Number (float64_of_Z 123) |}, sample_heap) ∧
  entries (o_value sample_object) !! "qux" = None ∧
  v_value (Object.Value sample_object "qux" sample_heap).1 = Null.
Proof.
  assert (entries (o_value sample_object) !! "foo" =
            Some (Number (float64_of_Z 123))) as Hf
    by (vm_compute; reflexivity).
  assert (entries (o_value sample_object) !! "qux" = None) as Hq
    by (vm_compute; reflexivity).
  split; [exact Hf|]. split; [|split; [exact Hq|]].
  - exact (proj1 (Value_spec sample_object "foo" sample_heap) _ Hf).
  - by rewrite (proj1 (proj2 (Value_spec sample_object "qux" sample_heap)) Hq).
Defined.

(** X5. Of [ContainsKey] and [NotContainsKey], exactly one records a
    failure, whatever the key: [NotContainsKey] when the object has the
    key, [ContainsKey] when it has not. An object built on the nil map
    has no key. *)
Theorem ContainsKey_NotContainsKey (o : Object) (key : string) (σ : Heap) :
  (is_Some (entries (o_value o) !! key) →
   Object.ContainsKey o key σ = (o, σ) ∧
   Object.NotContainsKey o key σ =
     (o, (fail (o_chain o) (notKeyFailure o key) σ).2)) ∧
  (entries (o_value o) !! key = None →
   Object.ContainsKey o key σ =
     (o, (fail (o_chain o) (keyFailure o key) σ).2) ∧
   Object.NotContainsKey o key σ = (o, σ)) ∧
  (o_value o = None → Object.NotContainsKey o key σ = (o, σ)).
Proof.
  split; [|split].
  - intros Hk. by rewrite ContainsKey_present, NotContainsKey_present.
  - intros Hk. by rewrite ContainsKey_missing, NotContainsKey_missing.
  - intros Hn. apply NotContainsKey_missing. by rewrite Hn.
Qed.

Lemma ContainsKey_NotContainsKey_witness :
  is_Some (entries (o_value sample_object) !! "bar") ∧
  Object.ContainsKey sample_object "bar" sample_heap =
    (sample_object, sample_heap) ∧
  entries (o_value sample_object) !! "qux" = None ∧
  Object.NotContainsKey sample_object "qux" sample_heap =
    (sample_object, sample_heap) ∧
  Object.NotContainsKey {| o_chain := O; o_value := None |} "a" empty_heap =
    ({| o_chain := O; o_value := None |}, empty_heap).
Proof.
  assert (is_Some (entries (o_value sample_object) !! "bar")) as Hb
    by (vm_compute; eauto).
  assert (entries (o_value sample_object) !! "qux" = None) as Hq
    by (vm_compute; reflexivity).
  split; [exact Hb|]. split; [|split; [exact Hq|split]].
  - exact (proj1 (proj1 (ContainsKey_NotContainsKey sample_object "bar"
                           sample_heap) Hb)).
  - exact (proj2 (proj1 (proj2 (ContainsKey_NotContainsKey sample_object
                                  "qux" sample_heap)) Hq)).
  - exact (proj2 (proj2 (ContainsKey_NotContainsKey
                           {| o_chain := O; o_value := None |} "a"
                           empty_heap)) eq_refl).
Defined.

(** ** Object: keys and values *)

Lemma foldl_snoc_fmap {A B} (f : A → B) (l : list A) (acc : list B) :
  foldl (λ acc x, acc ++ [f x]) acc l = acc ++ (f <$> l).
Proof.
  revert acc. induction l as [|x l IH]; intros acc; simpl.
  - by rewrite app_nil_r.
  - rewrite IH. by rewrite <- app_assoc.
Qed.

Lemma Keys_fmap (o : Object) :
  a_value (Object.Keys o) = Str <$> (map_to_list (entries (o_value o))).*1.
Proof.
  unfold Object.Keys. cbn [a_value].
  rewrite (foldl_snoc_fmap (λ kv : string * CanonicalValue, Str kv.1)).
  by rewrite <- list_fmap_compose.
Qed.

Lemma Values_fmap (o : Object) :
  a_value (Object.Values o) = (map_to_list (entries (o_value o))).*2.
Proof.
  unfold Object.Values. cbn [a_value].
  by rewrite (foldl_snoc_fmap (λ kv : string * CanonicalValue, kv.2)).
Qed.


(** ** Object: equality *)

Lemma DeepEqual_Mapping_dom (a b : gmap string CanonicalValue) :
  DeepEqual (Mapping a) (Mapping b) = true ↔
  dom a = dom b ∧
  ∀ k v1 v2, a !! k = Some v1 → b !! k = Some v2 → DeepEqual v1 v2 = true.
Proof.
  rewrite DeepEqual_Mapping. split.
  - intros [Hs H]. split.
    + apply set_subseteq_size_eq; [|rewrite !size_dom; lia].
      intros k [v Hv]%elem_of_dom. destruct (H k v Hv) as (? & ? & _).
      apply elem_of_dom. eauto.
    + intros k v1 v2 H1 H2. destruct (H k v1 H1) as (v2' & ? & ?).
      by simplify_eq.
  - intros [Hdom H]. split.
    + by rewrite <- !size_dom, Hdom.
    + intros k v1 H1.
      assert (is_Some (b !! k)) as [v2 H2].
      { apply elem_of_dom. rewrite <- Hdom. apply elem_of_dom. eauto. }
      eauto.
Qed.

Lemma Equal_eq (o : Object) (value : GoValue) (σ : Heap) :
  Object.Equal o value σ =
  match canon value with
  | Some (Mapping e) =>
      if DeepEqualMap (Some e) (o_value o) then (o, σ)
      else (o, (fail (o_chain o) (equalFailure o (Some e)) σ).2)
  | _ => (o, (fail (o_chain o) invalidInput σ).2)
  end.
Proof.
  unfold Object.Equal. rewrite bind_eq, canonMap_eq.
  destruct (canon value) as [[]|]; try reflexivity.
  cbn [fst snd negb]. by destruct (DeepEqualMap (Some m) (o_value o)).
Qed.

Lemma NotEqual_eq (o : Object) (v : GoValue) (σ : Heap) :
  Object.NotEqual o v σ =
  match canon v with
  | Some (Mapping e) =>
      if DeepEqualMap (Some e) (o_value o)
      then (o, (fail (o_chain o) (notEqualFailure v) σ).2)
      else (o, σ)
  | _ => (o, (fail (o_chain o) invalidInput σ).2)
  end.
Proof.
  unfold Object.NotEqual. rewrite bind_eq, canonMap_eq.
  destruct (canon v) as [[]|]; try reflexivity.
  cbn [fst snd negb]. by destruct (DeepEqualMap (Some m) (o_value o)).
Qed.

Lemma ContainsMap_eq (o : Object) (value : GoValue) (σ : Heap) :
  Object.ContainsMap o value σ =
  match canon value with
  | Some (Mapping e) =>
      if checkContainsMap (entries (o_value o)) e then (o, σ)
      else (o, (fail (o_chain o) (containsFailure o value) σ).2)
  | _ => (o, (fail (o_chain o) (containsFailure o value)
                (fail (o_chain o) invalidInput σ).2).2)
  end.
Proof.
  unfold Object.ContainsMap, Object.containsMap.
  rewrite !bind_eq, canonMap_eq.
  destruct (canon value) as [[]|]; try reflexivity.
  cbn [fst snd negb ret]. change (entries (Some m)) with m.
  by destruct (checkContainsMap (entries (o_value o)) m).
Qed.

Lemma NotContainsMap_eq (o : Object) (value : GoValue) (σ : Heap) :
  Object.NotContainsMap o value σ =
  match canon value with
  | Some (Mapping e) =>
      if checkContainsMap (entries (o_value o)) e
      then (o, (fail (o_chain o) (notContainsFailure o value) σ).2)
      else (o, σ)
  | _ => (o, (fail (o_chain o) invalidInput σ).2)
  end.
Proof.
  unfold Object.NotContainsMap, Object.containsMap.
  rewrite !bind_eq, canonMap_eq.
  destruct (canon value) as [[]|]; try reflexivity.
  cbn [fst snd negb ret]. change (entries (Some m)) with m.
  by destruct (checkContainsMap (entries (o_value o)) m).
Qed.

(** X7. For an argument that canonicalizes to a mapping, [Equal]
    records nothing exactly when the payload is a non-nil map with the
    same keys whose values are deeply equal to those of the argument,
    key by key; it records one failure of the equality kind otherwise.
    [NotEqual] records a failure exactly when [Equal] records none. *)
Theorem Equal_NotEqual
    (o : Object) (value : GoValue) (e : gmap string CanonicalValue)
    (σ : Heap) :
  canon value = Some (Mapping e) →
  (Object.Equal o value σ = (o, σ) ↔
   ∃ m, o_value o = Some m ∧ dom e = dom m ∧
        ∀ k v1 v2, e !! k = Some v1 → m !! k = Some v2 →
                   DeepEqual v1 v2 = true) ∧
  (Object.Equal o value σ = (o, σ) ∧
   Object.NotEqual o value σ =
     (o, (fail (o_chain o) (notEqualFailure value) σ).2)
   ∨
   Object.Equal o value σ =
     (o, (fail (o_chain o) (equalFailure o (Some e)) σ).2) ∧
   Object.NotEqual o value σ = (o, σ)).
Proof.
  intros He. rewrite Equal_eq, NotEqual_eq, He. split.
  - destruct (DeepEqualMap (Some e) (o_value o)) eqn:Hd.
    + split; [intros _|done]. destruct (o_value o) as [m|]; [|done].
      exists m. split; [done|]. by apply DeepEqual_Mapping_dom.
    + split; [intros H; by apply pair_fail_neq in H|].
      intros (m & Hm & H). rewrite Hm in Hd.
      apply DeepEqual_Mapping_dom in H. unfold DeepEqualMap in Hd.
      congruence.
  - destruct (DeepEqualMap (Some e) (o_value o)); [by left|by right].
Qed.

Lemma Equal_NotEqual_witness :
  canon (RMap {[ "foo" := RFloat (float64_of_Z 123);
                 "bar" := RStruct {[ "b" := RBool false;
                                     "a" := RBool true ]} ]}) =
    Some (Mapping (entries (o_value sample_object))) ∧
  Object.Equal sample_object
    (RMap {[ "foo" := RFloat (float64_of_Z 123);
             "bar" := RStruct {[ "b" := RBool false; "a" := RBool true ]} ]})
    sample_heap = (sample_object, sample_heap).
Proof.
  assert (canon (RMap {[ "foo" := RFloat (float64_of_Z 123);
                         "bar" := RStruct {[ "b" := RBool false;
                                             "a" := RBool true ]} ]}) =
            Some (Mapping (entries (o_value sample_object)))) as He
    by (vm_compute; reflexivity).
  split; [exact He|].
  apply (proj1 (Equal_NotEqual sample_object _ _ sample_heap He)).
  exists (entries (o_value sample_object)).
  split; [vm_compute; reflexivity|]. split; [reflexivity|].
  intros k v1 v2 H1 H2. rewrite H1 in H2. injection H2 as <-.
  apply DeepEqual_refl.
  pose proof (canon_canonical _ _ He) as Hc.
  rewrite canonical_Mapping in Hc. exact (Hc k v1 H1).
Defined.

(** X8. On an argument that [canonMap] rejects, [Equal], [NotEqual] and
    [NotContainsMap] return at once and record nothing of their own;
    [ContainsMap] goes on to record its own failure, so that this one
    call reports twice. *)
Theorem rejected_argument (o : Object) (value : GoValue) (σ : Heap) :
  (canonMap (o_chain o) value σ).1.2 = false →
  Object.Equal o value σ = (o, (canonMap (o_chain o) value σ).2) ∧
  Object.NotEqual o value σ = (o, (canonMap (o_chain o) value σ).2) ∧
  Object.NotContainsMap o value σ = (o, (canonMap (o_chain o) value σ).2) ∧
  Object.ContainsMap o value σ =
    (o, (fail (o_chain o) (containsFailure o value)
           (canonMap (o_chain o) value σ).2).2) ∧
  length (reports (Object.ContainsMap o value σ).2) =
    S (S (length (reports σ))).
Proof.
  rewrite Equal_eq, NotEqual_eq, NotContainsMap_eq, ContainsMap_eq.
  rewrite canonMap_eq. destruct (canon value) as [[]|]; try done.
  all: intros _; cbn [snd]; rewrite !reports_fail, !length_app; cbn;
       repeat split; lia.
Qed.

Lemma rejected_argument_witness :
  (canonMap (o_chain sample_object) (RSlice [RInt 1]) sample_heap).1.2
    = false ∧
  assertType <$> (reports (Object.ContainsMap sample_object
                             (RSlice [RInt 1]) sample_heap).2).*2 =
    [failureInvalidInput; failureAssertContains] ∧
  assertType <$> (reports (Object.NotContainsMap sample_object
                             (RSlice [RInt 1]) sample_heap).2).*2 =
    [failureInvalidInput].
Proof.
  assert ((canonMap (o_chain sample_object) (RSlice [RInt 1])
             sample_heap).1.2 = false) as Hr by (vm_compute; reflexivity).
  split; [exact Hr|].
  destruct (rejected_argument sample_object (RSlice [RInt 1]) sample_heap Hr)
    as (_ & _ & -> & -> & _).
  split; vm_compute; reflexivity.
Defined.

(** ** Object: containment *)

Lemma checkContainsMap_empty_inner (outer : gmap string CanonicalValue) :
  checkContainsMap outer ∅ = true.
Proof. apply checkContainsMap_true. intros k iv. by rewrite lookup_empty. Qed.

Lemma checkContainsMap_empty_outer (inner : gmap string CanonicalValue) :
  checkContainsMap ∅ inner = true ↔ inner = ∅.
Proof.
  split; [|intros ->; apply checkContainsMap_empty_inner].
  rewrite checkContainsMap_true. intros H. apply map_empty. intros k.
  destruct (inner !! k) as [iv|] eqn:Hk; [|done].
  destruct (H k iv Hk) as (ov & Hov & _). by rewrite lookup_empty in Hov.
Qed.

(** X9. Every object contains the empty map, an object built on the nil
    map as well, so that [ContainsMap] of the empty map never records a
    failure and [NotContainsMap] of it always does; and an object with
    no key contains nothing but the empty map. *)
Theorem ContainsMap_empty (o : Object) (σ : Heap) :
  Object.ContainsMap o (RMap ∅) σ = (o, σ) ∧
  Object.NotContainsMap o (RMap ∅) σ =
    (o, (fail (o_chain o) (notContainsFailure o (RMap ∅)) σ).2) ∧
  (∀ value e, canon value = Some (Mapping e) →
     entries (o_value o) = ∅ →
     (Object.ContainsMap o value σ = (o, σ) ↔ e = ∅)).
Proof.
  split; [|split].
  - rewrite ContainsMap_eq, canon_empty_map.
    by rewrite checkContainsMap_empty_inner.
  - rewrite NotContainsMap_eq, canon_empty_map.
    by rewrite checkContainsMap_empty_inner.
  - intros value e He Ho. rewrite ContainsMap_eq, He, Ho.
    rewrite <- checkContainsMap_empty_outer.
    destruct (checkContainsMap ∅ e); [done|].
    split; [intros H; by apply pair_fail_neq in H|done].
Qed.

(** X10. What [Equal] accepts, [ContainsMap] accepts: from the same
    store, if [Equal] records nothing for an argument, neither does
    [ContainsMap]. *)
Theorem Equal_ContainsMap (o : Object) (value : GoValue) (σ : Heap) :
  Object.Equal o value σ = (o, σ) →
  Object.ContainsMap o value σ = (o, σ).
Proof.
  rewrite Equal_eq, ContainsMap_eq.
  destruct (canon value) as [[| | | | |e]|];
    try (intros H; by apply pair_fail_neq in H).
  destruct (DeepEqualMap (Some e) (o_value o)) eqn:Hd;
    [|intros H; by apply pair_fail_neq in H].
  intros _. destruct (o_value o) as [m|]; [|done].
  change (entries (Some m)) with m. unfold DeepEqualMap in Hd.
  rewrite <- containsValue_Mapping.
  rewrite (DeepEqual_containsValue _ _ (DeepEqual_sym _ _ Hd)). done.
Qed.

Lemma Equal_ContainsMap_witness :
  Object.Equal sample_object
    (RMap {[ "foo" := RInt 123;
             "bar" := RMap {[ "a" := RBool true; "b" := RBool false ]} ]})
    sample_heap = (sample_object, sample_heap) ∧
  Object.ContainsMap sample_object
    (RMap {[ "foo" := RInt 123;
             "bar" := RMap {[ "a" := RBool true; "b" := RBool false ]} ]})
    sample_heap = (sample_object, sample_heap).
Proof.
  assert (Object.Equal sample_object
            (RMap {[ "foo" := RInt 123;
                     "bar" := RMap {[ "a" := RBool true;
                                      "b" := RBool false ]} ]})
            sample_heap = (sample_object, sample_heap)) as He
    by (vm_compute; reflexivity).
  split; [exact He|].
  exact (Equal_ContainsMap sample_object _ sample_heap He).
Defined.

(** ** Object: the value under a key *)

Lemma mapIndex_lookup (o : Object) (key : string) (v : CanonicalValue) :
  entries (o_value o) !! key = Some v → mapIndex (o_value o) key = v.
Proof. intros H. unfold mapIndex. by rewrite H. Qed.

Lemma ValueEqual_eq (o : Object) (key : string) (value : GoValue)
    (σ : Heap) :
  failbit (chain_at σ (o_chain o)) = false →
  is_Some (entries (o_value o) !! key) →
  Object.ValueEqual o key value σ =
  match canon value with
  | None => (o, (fail (o_chain o) invalidInput σ).2)
  | Some cv =>
      if DeepEqual cv (mapIndex (o_value o) key) then (o, σ)
      else (o, (fail (o_chain o) (valueEqualFailure o key cv) σ).2)
  end.
Proof.
  intros Hf Hk. unfold Object.ValueEqual.
  rewrite bind_eq, ContainsKey_present by done. cbn [fst snd].
  rewrite bind_eq. unfold failed at 1. cbn [fst snd]. rewrite Hf.
  rewrite bind_eq. unfold canonValue.
  destruct (canon value) as [cv|]; [|reflexivity].
  cbn [ret fst snd negb].
  by destruct (DeepEqual cv (mapIndex (o_value o) key)).
Qed.

Lemma ValueNotEqual_eq (o : Object) (key : string) (value : GoValue)
    (σ : Heap) :
  failbit (chain_at σ (o_chain o)) = false →
  is_Some (entries (o_value o) !! key) →
  Object.ValueNotEqual o key value σ =
  match canon value with
  | None => (o, (fail (o_chain o) invalidInput σ).2)
  | Some cv =>
      if DeepEqual cv (mapIndex (o_value o) key)
      then (o, (fail (o_chain o) (valueNotEqualFailure cv) σ).2)
      else (o, σ)
  end.
Proof.
  intros Hf Hk. unfold Object.ValueNotEqual.
  rewrite bind_eq, ContainsKey_present by done. cbn [fst snd].
  rewrite bind_eq. unfold failed at 1. cbn [fst snd]. rewrite Hf.
  rewrite bind_eq. unfold canonValue.
  destruct (canon value) as [cv|]; [|reflexivity].
  cbn [ret fst snd negb].
  by destruct (DeepEqual cv (mapIndex (o_value o) key)).
Qed.

(** X11. On a chain that has not failed and for a key the object has,
    [ValueEqual] records nothing exactly when the value given
    canonicalizes to a tree deeply equal to the one stored under the
    key, and one failure otherwise; for a value that canonicalizes,
    exactly one of [ValueEqual] and [ValueNotEqual] records a failure,
    and for one that does not, each records the failure of the
    canonicalizer and no other. *)
Theorem ValueEqual_ValueNotEqual
    (o : Object) (key : string) (value : GoValue) (stored : CanonicalValue)
    (σ : Heap) :
  failbit (chain_at σ (o_chain o)) = false →
  entries (o_value o) !! key = Some stored →
  (Object.ValueEqual o key value σ = (o, σ) ↔
   ∃ cv, canon value = Some cv ∧ DeepEqual cv stored = true) ∧
  (∀ cv, canon value = Some cv →
     Object.ValueEqual o key value σ = (o, σ) ∧
     Object.ValueNotEqual o key value σ =
       (o, (fail (o_chain o) (valueNotEqualFailure cv) σ).2)
     ∨
     Object.ValueEqual o key value σ =
       (o, (fail (o_chain o) (valueEqualFailure o key cv) σ).2) ∧
     Object.ValueNotEqual o key value σ = (o, σ)) ∧
  (canon value = None →
   Object.ValueEqual o key value σ =
     (o, (fail (o_chain o) invalidInput σ).2) ∧
   Object.ValueNotEqual o key value σ =
     (o, (fail (o_chain o) invalidInput σ).2)).
Proof.
  intros Hf Hk.
  rewrite ValueEqual_eq, ValueNotEqual_eq by eauto.
  rewrite (mapIndex_lookup o key stored Hk).
  destruct (canon value) as [cv|].
  - split; [|split; [|done]].
    + destruct (DeepEqual cv stored) eqn:Hd.
      * split; [eauto|done].
      * split; [intros H; by apply pair_fail_neq in H|].
        intros (cv' & [= <-] & ?). congruence.
    + intros cv' [= <-]. destruct (DeepEqual cv stored); [by left|by right].
  - split; [|split; [done|done]].
    split; [intros H; by apply pair_fail_neq in H|].
    by intros (? & ? & _).
Qed.

Lemma ValueEqual_ValueNotEqual_witness :
  failbit (chain_at sample_heap (o_chain sample_object)) = false ∧
  entries (o_value sample_object) !! "foo" =
    Some (Number (float64_of_Z 123)) ∧
  Object.ValueEqual sample_object "foo" (RFloat (float64_of_Z 123))
    sample_heap = (sample_object, sample_heap).
Proof.
  assert (failbit (chain_at sample_heap (o_chain sample_object)) = false)
    as Hf by (vm_compute; reflexivity).
  assert (entries (o_value sample_object) !! "foo" =
            Some (Number (float64_of_Z 123))) as Hk
    by (vm_compute; reflexivity).
  split; [exact Hf|]. split; [exact Hk|].
  apply (proj1 (ValueEqual_ValueNotEqual sample_object "foo"
                  (RFloat (float64_of_Z 123)) _ sample_heap Hf Hk)).
  exists (Number (float64_of_Z 123)). split; vm_compute; reflexivity.
Defined.

Lemma canon_singleton (key : string) (value : GoValue)
    (cv : CanonicalValue) :
  canon value = Some cv →
  canon (RMap {[ key := value ]}) = Some (Mapping {[ key := cv ]}).
Proof.
  intros Hv. cbn [canon]. rewrite map_fmap_singleton, Hv.
  rewrite bool_decide_eq_true_2.
  - by rewrite omap_singleton_Some with (y := cv).
  - apply map_Forall_singleton. eauto.
Qed.

Lemma ValueEqual_missing_eq (o : Object) (key : string) (value : GoValue)
    (σ : Heap) :
  entries (o_value o) !! key = None →
  Object.ValueEqual o key value σ =
    (o, (fail (o_chain o) (keyFailure o key) σ).2).
Proof.
  intros Hk. unfold Object.ValueEqual. rewrite !bind_eq.
  unfold failed at 1. rewrite ContainsKey_missing by done.
  cbn [fst snd]. by rewrite failbit_fail.
Qed.

(** X12. On a chain that has not failed, what [ValueEqual] accepts
    under a key, [ContainsMap] accepts as the map of that one key: if
    [ValueEqual] records nothing for a key and a value, [ContainsMap]
    records nothing for the map that binds the key to the value. *)
Theorem ValueEqual_ContainsMap
    (o : Object) (key : string) (value : GoValue) (σ : Heap) :
  failbit (chain_at σ (o_chain o)) = false →
  Object.ValueEqual o key value σ = (o, σ) →
  Object.ContainsMap o (RMap {[ key := value ]}) σ = (o, σ).
Proof.
  intros Hf Hv.
  destruct (entries (o_value o) !! key) as [stored|] eqn:Hk.
  - rewrite ValueEqual_eq in Hv by eauto.
    rewrite (mapIndex_lookup o key stored Hk) in Hv.
    destruct (canon value) as [cv|] eqn:Hc;
      [|by apply pair_fail_neq in Hv].
    destruct (DeepEqual cv stored) eqn:Hd; [|by apply pair_fail_neq in Hv].
    rewrite ContainsMap_eq, (canon_singleton key value cv Hc).
    assert (checkContainsMap (entries (o_value o)) {[ key := cv ]} = true)
      as ->; [|done].
    apply checkContainsMap_true. intros k iv Hiv.
    apply lookup_singleton_Some in Hiv as [<- <-].
    exists stored. split; [done|].
    by apply DeepEqual_containsValue, DeepEqual_sym.
  - rewrite ValueEqual_missing_eq in Hv by done.
    by apply pair_fail_neq in Hv.
Qed.

Lemma ValueEqual_ContainsMap_witness :
  failbit (chain_at sample_heap (o_chain sample_object)) = false ∧
  Object.ValueEqual sample_object "foo" (RInt 123) sample_heap =
    (sample_object, sample_heap) ∧
  Object.ContainsMap sample_object (RMap {[ "foo" := RInt 123 ]})
    sample_heap = (sample_object, sample_heap).
Proof.
  assert (failbit (chain_at sample_heap (o_chain sample_object)) = false)
    as Hf by (vm_compute; reflexivity).
  assert (Object.ValueEqual sample_object "foo" (RInt 123) sample_heap =
            (sample_object, sample_heap)) as Hv
    by (vm_compute; reflexivity).
  split; [exact Hf|]. split; [exact Hv|].
  exact (ValueEqual_ContainsMap sample_object "foo" (RInt 123) sample_heap
           Hf Hv).
Defined.

(** ** How many failures a call records *)

Lemma records_none (n : nat) (c : chain) (σ : Heap) :
  records_at_most n c σ σ.
Proof. exists []. split; [done|]. split; [simpl; lia|by left]. Qed.

Lemma records_one (n : nat) (c : chain) (f : Failure) (σ : Heap) :
  records_at_most (S n) c σ (fail c f σ).2.
Proof.
  exists [f]. split; [done|]. split; [simpl; lia|].
  right. apply failbit_fail.
Qed.

Lemma records_two (c : chain) (f g : Failure) (σ : Heap) :
  records_at_most 2 c σ (fail c g (fail c f σ).2).2.
Proof.
  exists [f; g]. split; [done|]. split; [simpl; lia|].
  right. apply failbit_fail.
Qed.

Lemma ValueEqual_records (o : Object) (key : string) (value : GoValue)
    (σ : Heap) :
  records_at_most 1 (o_chain o) σ (Object.ValueEqual o key value σ).2 ∧
  records_at_most 1 (o_chain o) σ (Object.ValueNotEqual o key value σ).2.
Proof.
  destruct (entries (o_value o) !! key) as [stored|] eqn:Hk.
  - destruct (failbit (chain_at σ (o_chain o))) eqn:Hf.
    + unfold Object.ValueEqual, Object.ValueNotEqual.
      rewrite !bind_eq, !ContainsKey_present by eauto.
      unfold failed. cbn [fst snd]. rewrite Hf.
      split; apply records_none.
    + rewrite ValueEqual_eq, ValueNotEqual_eq by eauto.
      destruct (canon value) as [cv|];
        [destruct (DeepEqual cv (mapIndex (o_value o) key))|];
        split; cbn [snd]; (apply records_none || apply records_one).
  - unfold Object.ValueEqual, Object.ValueNotEqual. rewrite !bind_eq.
    unfold failed. rewrite !ContainsKey_missing by done.
    cbn [fst snd]. rewrite failbit_fail.
    split; apply records_one.
Qed.

(** X13. One call of a method of [Object] or of [Match] records at most
    one failure, but for [ContainsMap], which records at most two; and a
    call that records a failure leaves the chain failed. ([Path] and
    [Schema], which record through helpers declared elsewhere, are left
    out.) *)
Theorem failures_per_call :
  (∀ getPath checkSchema (o : Object) (call : ObjectCall) (σ : Heap) n,
     most_failures call = Some n →
     records_at_most n (o_chain o) σ
       (callObject getPath checkSchema o call σ).2) ∧
  (∀ (m : Match) (call : MatchCall) (σ : Heap),
     records_at_most 1 (m_chain m) σ (callMatch m call σ).2).
Proof.
  split.
  - intros getPath checkSchema o call σ n Hn.
    destruct call; cbn [most_failures] in Hn; simplify_eq;
      unfold callObject; rewrite ?bind_eq; cbn [ret snd];
      unfold Object.Empty, Object.NotEmpty;
      rewrite ?Equal_eq, ?NotEqual_eq, ?ContainsMap_eq, ?NotContainsMap_eq.
    + apply records_none.
    + apply records_none.
    + apply records_none.
    + unfold Object.Value. destruct (entries (o_value o) !! key);
        [apply records_none|apply records_one].
    + destruct (canon (RMap ∅)) as [[]|]; try apply records_one.
      destruct (DeepEqualMap _ _); [apply records_none|apply records_one].
    + destruct (canon (RMap ∅)) as [[]|]; try apply records_one.
      destruct (DeepEqualMap _ _); [apply records_one|apply records_none].
    + destruct (canon value) as [[]|]; try apply records_one.
      destruct (DeepEqualMap _ _); [apply records_none|apply records_one].
    + destruct (canon v) as [[]|]; try apply records_one.
      destruct (DeepEqualMap _ _); [apply records_one|apply records_none].
    + unfold Object.ContainsKey. destruct (Object.containsKey o key);
        [apply records_none|apply records_one].
    + unfold Object.NotContainsKey. destruct (Object.containsKey o key);
        [apply records_one|apply records_none].
    + destruct (canon value) as [[]|]; try apply records_two.
      destruct (checkContainsMap _ _); [apply records_none|apply records_one].
    + destruct (canon value) as [[]|]; try apply records_one.
      destruct (checkContainsMap _ _); [apply records_one|apply records_none].
    + apply ValueEqual_records.
    + apply ValueEqual_records.
  - intros m call σ.
    destruct call; unfold callMatch; rewrite ?bind_eq; cbn [ret snd].
    + apply records_none.
    + apply records_none.
    + unfold Match.Index.
      destruct (bool_decide (index < 0) || bool_decide (index >= Match.len m));
        [apply records_one|apply records_none].
    + unfold Match.Name. destruct (names m !! name) as [i|];
        [|apply records_one].
      unfold Match.Index.
      destruct (bool_decide (i < 0) || bool_decide (i >= Match.len m));
        [apply records_one|apply records_none].
    + unfold Match.Empty. destruct (bool_decide (Match.len m = 0));
        [apply records_none|apply records_one].
    + unfold Match.NotEmpty. destruct (bool_decide (Match.len m = 0));
        [apply records_one|apply records_none].
    + unfold Match.Values. destruct (DeepEqualStrings _ _);
        [apply records_none|apply records_one].
    + unfold Match.NotValues. destruct (DeepEqualStrings _ _);
        [apply records_one|apply records_none].
Qed.

Lemma failures_per_call_witness :
  most_failures (OContainsMap (RSlice [])) = Some 2%nat ∧
  records_at_most 2 (o_chain sample_object) sample_heap
    (callObject getPath_null checkSchema_any sample_object
       (OContainsMap (RSlice [])) sample_heap).2 ∧
  length (reports (callObject getPath_null checkSchema_any sample_object
                     (OContainsMap (RSlice [])) sample_heap).2) = 2%nat.
Proof.
  split; [reflexivity|]. split.
  - exact (proj1 failures_per_call getPath_null checkSchema_any
             sample_object (OContainsMap (RSlice [])) sample_heap 2%nat
             eq_refl).
  - vm_compute. reflexivity.
Defined.

(** ** Match: names, emptiness and values together *)

(** X14. When the submatch list is at least as long as the list of
    names, as it is for the result of a successful match, every name the
    table binds resolves: [Name] returns the submatch at the place of
    the name and records nothing. *)
Theorem Name_resolves
    (c : chain) (subs names0 : GoStrings) (name : string) (i : Z)
    (σ : Heap) :
  (length (default [] names0) ≤ length (default [] subs))%nat →
  names (makeMatch c subs names0) !! name = Some i →
  ∃ s, default [] subs !! Z.to_nat i = Some s ∧
       default [] names0 !! Z.to_nat i = Some name ∧
       Match.Name (makeMatch c subs names0) name σ =
         ({| s_chain := c; s_value := s |}, σ).
Proof.
  intros Hlen Hi. pose proof Hi as Hi'.
  apply makeMatch_names in Hi' as (_ & n & -> & Hn & _).
  unfold Match.Name. rewrite Hi.
  destruct (Index_in_range (makeMatch c subs names0) (Z.of_nat n) σ)
    as (s & Hs & ->).
  { unfold Match.len, makeMatch. cbn [submatches].
    apply lookup_lt_Some in Hn.
    assert (length (match subs with Some l => l | None => [] end) =
            length (default [] subs)) as -> by by destruct subs.
    lia. }
  exists s. rewrite Nat2Z.id in *. split; [|done].
  unfold makeMatch in Hs. cbn [submatches] in Hs. by destruct subs.
Qed.

Lemma Name_resolves_witness :
  let subs := Some ["whole"; "example.com"; "john"] in
  let names0 := Some [""; "host"; "user"] in
  (length (default [] names0) ≤ length (default [] subs))%nat ∧
  names (makeMatch O subs names0) !! "user" = Some 2 ∧
  ∃ s, default [] subs !! Z.to_nat 2 = Some s ∧
       default [] names0 !! Z.to_nat 2 = Some "user" ∧
       Match.Name (makeMatch O subs names0) "user" empty_heap =
         ({| s_chain := O; s_value := s |}, empty_heap).
Proof.
  intros subs names0.
  assert ((length (default [] names0) ≤ length (default [] subs))%nat)
    as Hlen by (vm_compute; lia).
  assert (names (makeMatch O subs names0) !! "user" = Some 2) as Hi
    by (vm_compute; reflexivity).
  split; [exact Hlen|]. split; [exact Hi|].
  exact (Name_resolves O subs names0 "user" 2 empty_heap Hlen Hi).
Defined.

(** X15. Of [Empty] and [NotEmpty], exactly one records a failure. When
    there is no submatch, it is [NotEmpty], and [Index] is out of bounds
    at every index; when there is one, it is [Empty], and [Index] at 0
    returns the first submatch and records nothing. *)
Theorem Empty_NotEmpty_Index (m : Match) (σ : Heap) :
  (submatches m = [] →
   Match.Empty m σ = (m, σ) ∧
   Match.NotEmpty m σ = (m, (fail (m_chain m) matchNotEmptyFailure σ).2) ∧
   ∀ i, Match.Index m i σ =
          ({| s_chain := m_chain m; s_value := "" |},
           (fail (m_chain m) (indexFailure m i) σ).2)) ∧
  (∀ s l, submatches m = s :: l →
   Match.Empty m σ = (m, (fail (m_chain m) (matchEmptyFailure m) σ).2) ∧
   Match.NotEmpty m σ = (m, σ) ∧
   Match.Index m 0 σ = ({| s_chain := m_chain m; s_value := s |}, σ)).
Proof.
  split.
  - intros He. unfold Match.Empty, Match.NotEmpty.
    assert (Match.len m = 0) as Hl by (unfold Match.len; by rewrite He).
    rewrite !bool_decide_eq_true_2 by done.
    split; [done|]. split; [done|]. intros i.
    apply Index_out_of_range. lia.
  - intros s l He. unfold Match.Empty, Match.NotEmpty.
    assert (Match.len m ≠ 0) as Hl
      by (unfold Match.len; rewrite He; simpl; lia).
    rewrite !bool_decide_eq_false_2 by done.
    split; [done|]. split; [done|].
    destruct (Index_in_range m 0 σ) as (s' & Hs' & ->).
    { unfold Match.len in *. lia. }
    rewrite He in Hs'. change (Z.to_nat 0) with O in Hs'.
    injection Hs' as <-. done.
Qed.

Lemma Empty_NotEmpty_Index_witness :
  let none := makeMatch O None (Some [""; "host"]) in
  let some := makeMatch O (Some ["whole"; "x"]) None in
  (submatches none = [] ∧ Match.Empty none empty_heap = (none, empty_heap)) ∧
  (submatches some = ["whole"; "x"] ∧
   Match.NotEmpty some empty_heap = (some, empty_heap)).
Proof.
  intros none some. split.
  - split; [reflexivity|].
    exact (proj1 (proj1 (Empty_NotEmpty_Index none empty_heap) eq_refl)).
  - split; [reflexivity|].
    exact (proj1 (proj2 (proj2 (Empty_NotEmpty_Index some empty_heap)
                           "whole" ["x"] eq_refl))).
Defined.

Lemma Values_passes (m : Match) (values : GoStrings) (σ : Heap) :
  Match.Values m values σ = (m, σ) ↔
  default [] values = drop 1 (submatches m).
Proof.
  unfold Match.Values, DeepEqualStrings. rewrite getValues_drop.
  assert (match values with Some l => l | None => [] end = default [] values)
    as -> by by destruct values.
  case_bool_decide as Hd; cbn [negb]; split; try done.
  intros Hp. by apply pair_fail_neq in Hp.
Qed.

(** X16. What [Values] accepts, [Index] returns: if [Values] records
    nothing for a list of values, then [Index] at place [j + 1] returns
    the value at place [j] of the list and records nothing, for every
    place of the list, and beyond the list [Index] is out of bounds. *)
Theorem Values_Index (m : Match) (values : GoStrings) (σ : Heap) :
  Match.Values m values σ = (m, σ) →
  (∀ (j : nat) (v : string) (σ' : Heap),
     default [] values !! j = Some v →
     Match.Index m (Z.of_nat j + 1) σ' =
       ({| s_chain := m_chain m; s_value := v |}, σ')) ∧
  (∀ (i : Z) (σ' : Heap),
     i > Z.of_nat (length (default [] values)) →
     Match.Index m i σ' =
       ({| s_chain := m_chain m; s_value := "" |},
        (fail (m_chain m) (indexFailure m i) σ').2)).
Proof.
  intros Hv%Values_passes. split.
  - intros j v σ' Hj. rewrite Hv, lookup_drop in Hj.
    destruct (Index_in_range m (Z.of_nat j + 1) σ') as (s & Hs & ->).
    { apply lookup_lt_Some in Hj. unfold Match.len. lia. }
    replace (Z.to_nat (Z.of_nat j + 1)) with (1 + j)%nat in Hs by lia.
    by simplify_eq.
  - intros i σ' Hi. apply Index_out_of_range. unfold Match.len.
    rewrite Hv, length_drop in Hi. lia.
Qed.

Lemma Values_Index_witness :
  let m := makeMatch O (Some ["http://x/users/y"; "x"; "y"]) None in
  Match.Values m (Some ["x"; "y"]) empty_heap = (m, empty_heap) ∧
  Match.Index m 2 empty_heap =
    ({| s_chain := O; s_value := "y" |}, empty_heap).
Proof.
  intros m.
  assert (Match.Values m (Some ["x"; "y"]) empty_heap = (m, empty_heap))
    as Hv by (vm_compute; reflexivity).
  split; [exact Hv|].
  exact (proj1 (Values_Index m (Some ["x"; "y"]) empty_heap Hv)
           1%nat "y" empty_heap eq_refl).
Defined.

(** X17. [Values] and [NotValues] called with no argument are the calls
    with the empty list, and [Values] then records nothing exactly when
    there is at most one submatch: it does not tell a match without
    groups from no match at all. *)
Theorem Values_no_argument (m : Match) (σ : Heap) :
  Match.Values m None σ = Match.Values m (Some []) σ ∧
  Match.NotValues m None σ = Match.NotValues m (Some []) σ ∧
  (Match.Values m None σ = (m, σ) ↔ (length (submatches m) ≤ 1)%nat).
Proof.
  split; [done|]. split; [done|]. rewrite Values_passes. cbn.
  destruct (submatches m) as [|s [|s' l]]; cbn; split; (done || lia).
Qed.

(** X18. For an argument that canonicalizes to a mapping, exactly one of
    [ContainsMap] and [NotContainsMap] records a failure: [ContainsMap]
    when the payload does not contain the mapping, [NotContainsMap] when
    it does. *)
Theorem ContainsMap_NotContainsMap
    (o : Object) (value : GoValue) (e : gmap string CanonicalValue)
    (σ : Heap) :
  canon value = Some (Mapping e) →
  (checkContainsMap (entries (o_value o)) e = true ∧
   Object.ContainsMap o value σ = (o, σ) ∧
   Object.NotContainsMap o value σ =
     (o, (fail (o_chain o) (notContainsFailure o value) σ).2))
  ∨
  (checkContainsMap (entries (o_value o)) e = false ∧
   Object.ContainsMap o value σ =
     (o, (fail (o_chain o) (containsFailure o value) σ).2) ∧
   Object.NotContainsMap o value σ = (o, σ)).
Proof.
  intros He. rewrite ContainsMap_eq, NotContainsMap_eq, He.
  destruct (checkContainsMap (entries (o_value o)) e); [by left|by right].
Qed.

Lemma ContainsMap_NotContainsMap_witness :
  canon (RMap {[ "foo" := RInt 123; "qux" := RInt 456 ]}) =
    Some (Mapping {[ "foo" := Number (float64_of_Z 123);
                     "qux" := Number (float64_of_Z 456) ]}) ∧
  Object.NotContainsMap sample_object
    (RMap {[ "foo" := RInt 123; "qux" := RInt 456 ]}) sample_heap =
    (sample_object, sample_heap).
Proof.
  assert (canon (RMap {[ "foo" := RInt 123; "qux" := RInt 456 ]}) =
            Some (Mapping {[ "foo" := Number (float64_of_Z 123);
                             "qux" := Number (float64_of_Z 456) ]})) as He
    by (vm_compute; reflexivity).
  split; [exact He|].
  destruct (ContainsMap_NotContainsMap sample_object _ _ sample_heap He)
    as [(Hc & _)|(_ & _ & ->)]; [|reflexivity].
  vm_compute in Hc. discriminate Hc.
Defined.
